(** * number_range: a shallow embedding of [src/src/lib.rs]

    The generic number type [T] of the crate is embedded as [Z]
    together with the operation the code uses on it.  For the
    iterator only [T]'s [+] is needed ([std::ops::Add]); it is a
    parameter of the [Iter] section and is instantiated below with
    the wrap-around addition of [i64] (the behaviour of [+] in a
    release build).  Strings ([&str], [String]) are lists of ASCII
    characters. *)

From Stdlib Require Import ZArith Lia List Ascii String Bool.
Import ListNotations.
Open Scope Z_scope.

(** ** Data model *)

(** [pub enum Number<T> { Single(T), Range(T, T, T) }] *)
Inductive Number : Type :=
| Single (v : Z)
| Range (start step end_ : Z).

(** [Number::is_valid] (lib.rs 76-84). *)
Definition is_valid (n : Number) : bool :=
  match n with
  | Single _ => true
  | Range start step end_ =>
      ((start <=? end_) && (0 <? step)) || ((end_ <=? start) && (step <? 0))
  end.

(** [Number::is_invalid] *)
Definition is_invalid (n : Number) : bool := negb (is_valid n).

(** ** Iteration: [impl Iterator for NumberRange] (lib.rs 268-300)

    [next] acts on the [numbers] deque only; it is written on the
    deque (front = head of the list) and lifted to the whole struct
    further below. *)
Section Iter.
Variable add : Z -> Z -> Z.

Fixpoint next (numbers : list Number) : option Z * list Number :=
  match numbers with
  | [] => (None, [])
  | Single v :: rest => (Some v, rest)
  | Range start step end_ :: rest =>
      if is_valid (Range start step end_) then
        let next_step := Range (add start step) step end_ in
        if is_valid next_step then (Some start, next_step :: rest)
        else (Some start, rest)
      else next rest
  end.

(** [n] successive calls of [next]: the values returned and the
    final deque. *)
Fixpoint run (n : nat) (numbers : list Number)
  : list (option Z) * list Number :=
  match n with
  | O => ([], numbers)
  | S n' =>
      let (v, numbers') := next numbers in
      let (vs, numbers'') := run n' numbers' in
      (v :: vs, numbers'')
  end.
End Iter.

(** ** The machine integer [i64] *)

Definition i64_min : Z := - 2 ^ 63.
Definition i64_max : Z := 2 ^ 63 - 1.

Definition in_i64 (z : Z) : Prop := i64_min <= z <= i64_max.

(** Two's-complement wrap-around into [i64]. *)
Definition wrap_i64 (z : Z) : Z := (z + 2 ^ 63) mod 2 ^ 64 - 2 ^ 63.

(** [<i64 as Add>::add] in a release build. *)
Definition add_i64 (x y : Z) : Z := wrap_i64 (x + y).

Example next_doc :
  fst (run add_i64 7 [Single 1; Range 3 2 6; Range (-4) 1 (-2)])
  = [Some 1; Some 3; Some 5; Some (-4); Some (-3); Some (-2); None].
Proof. reflexivity. Qed.

(** ** Strings

    A Rust [&str] is a list of characters; [lit] turns a string
    literal into one. *)
Definition str := list ascii.
Definition lit (s : string) : str := list_ascii_of_string s.

Definition ascii_eqb (a b : ascii) : bool := Ascii.eqb a b.

(** [char::is_whitespace] on ASCII: tab, line feed, vertical tab,
    form feed, carriage return and space. *)
Definition is_whitespace (c : ascii) : bool :=
  let n := nat_of_ascii c in
  (Nat.leb 9 n && Nat.leb n 13) || Nat.eqb n 32.

Fixpoint trim_start (s : str) : str :=
  match s with
  | c :: r => if is_whitespace c then trim_start r else s
  | [] => []
  end.

(** [str::trim] *)
Definition trim (s : str) : str := rev (trim_start (rev (trim_start s))).

(** [str::replace(c, r)] for a character pattern [c]. *)
Definition replace (c : ascii) (r : str) (s : str) : str :=
  flat_map (fun x => if ascii_eqb x c then r else [x]) s.

(** [s.split_whitespace().join("")] *)
Definition join_split_whitespace (s : str) : str :=
  filter (fun x => negb (is_whitespace x)) s.

(** [str::split(c)] *)
Fixpoint split (c : ascii) (s : str) : list str :=
  match s with
  | [] => [[]]
  | x :: r =>
      if ascii_eqb x c then [] :: split c r
      else match split c r with
           | h :: t => (x :: h) :: t
           | [] => [[x]]
           end
  end.

(** [str::matches(c).count()] *)
Definition count_matches (c : ascii) (s : str) : nat :=
  List.length (filter (fun x => ascii_eqb x c) s).

(** [str::split_once(c)] *)
Fixpoint split_once (c : ascii) (s : str) : option (str * str) :=
  match s with
  | [] => None
  | x :: r =>
      if ascii_eqb x c then Some ([], r)
      else match split_once c r with
           | Some (a, b) => Some (x :: a, b)
           | None => None
           end
  end.

(** [str::splitn(n, c)] *)
Fixpoint splitn (n : nat) (c : ascii) (s : str) : list str :=
  match n with
  | O => []
  | S O => [s]
  | S n' =>
      match split_once c s with
      | Some (a, b) => a :: splitn n' c b
      | None => [s]
      end
  end.

(** [Itertools::join(sep)] *)
Fixpoint join (sep : str) (l : list str) : str :=
  match l with
  | [] => []
  | [x] => x
  | x :: r => x ++ sep ++ join sep r
  end.

(** ** [i64]: [FromStr] and [Display] *)

Definition digit_val (c : ascii) : option Z :=
  let n := nat_of_ascii c in
  if Nat.leb 48 n && Nat.leb n 57 then Some (Z.of_nat n - 48) else None.

Fixpoint digits_val (acc : Z) (ds : str) : option Z :=
  match ds with
  | [] => Some acc
  | d :: r =>
      match digit_val d with
      | Some v => digits_val (acc * 10 + v) r
      | None => None
      end
  end.

(** [<i64 as FromStr>::from_str] (core's [from_str_radix] with radix
    10): an optional sign, then one or more decimal digits, the value
    within [i64]. *)
Definition from_str_i64 (s : str) : option Z :=
  let pos ds := match digits_val 0 ds with
                | Some v => if v <=? i64_max then Some v else None
                | None => None
                end in
  let neg ds := match digits_val 0 ds with
                | Some v => if i64_min <=? - v then Some (- v) else None
                | None => None
                end in
  match s with
  | [] => None
  | [c] => if ascii_eqb c "+"%char || ascii_eqb c "-"%char then None
           else pos s
  | c :: ds =>
      if ascii_eqb c "+"%char then pos ds
      else if ascii_eqb c "-"%char then neg ds
      else pos s
  end.

Definition digit_char (d : Z) : ascii := ascii_of_nat (Z.to_nat (d + 48)).

(** Decimal digits of [n >= 0], least significant first. *)
Fixpoint dec_rev (fuel : nat) (n : Z) : str :=
  match fuel with
  | O => []
  | S f =>
      digit_char (n mod 10)
        :: (if n / 10 =? 0 then [] else dec_rev f (n / 10))
  end.

Definition show_digits (n : Z) : str :=
  rev (dec_rev (S (Z.to_nat (Z.log2 n))) n).

(** [<i64 as Display>::fmt] *)
Definition show_i64 (z : Z) : str :=
  if z <? 0 then "-"%char :: show_digits (- z) else show_digits z.

Example show_i64_ex :
  show_i64 (-9223372036854775808) = lit "-9223372036854775808"
  /\ show_i64 0 = lit "0" /\ show_i64 120 = lit "120".
Proof. vm_compute. auto. Qed.

Example from_str_i64_ex :
  from_str_i64 (lit "-9223372036854775808") = Some i64_min
  /\ from_str_i64 (lit "9223372036854775808") = None
  /\ from_str_i64 (lit "+007") = Some 7
  /\ from_str_i64 (lit "-") = None /\ from_str_i64 (lit "") = None
  /\ from_str_i64 (lit "1.0") = None.
Proof. vm_compute. auto 7. Qed.

(** ** Options, the [NumberRange] struct and errors *)

(** [pub struct NumberRangeOptions<T>] *)
Record NumberRangeOptions : Type := {
  group_sep : ascii;
  whitespace : bool;
  decimal_sep : ascii;
  list_sep : ascii;
  range_sep : ascii;
  default_start : option Z;
  default_end : option Z
}.

(** [NumberRangeOptions::new] *)
Definition options_new : NumberRangeOptions := {|
  list_sep := ",";
  range_sep := ":";
  decimal_sep := ".";
  group_sep := "_";
  whitespace := false;
  default_start := None;
  default_end := None
|}.

Definition with_range_sep (o : NumberRangeOptions) (sep : ascii) :=
  {| list_sep := list_sep o; range_sep := sep; decimal_sep := decimal_sep o;
     group_sep := group_sep o; whitespace := whitespace o;
     default_start := default_start o; default_end := default_end o |}.

Definition with_list_sep (o : NumberRangeOptions) (sep : ascii) :=
  {| list_sep := sep; range_sep := range_sep o; decimal_sep := decimal_sep o;
     group_sep := group_sep o; whitespace := whitespace o;
     default_start := default_start o; default_end := default_end o |}.

Definition with_group_sep (o : NumberRangeOptions) (sep : ascii) :=
  {| list_sep := list_sep o; range_sep := range_sep o; decimal_sep := decimal_sep o;
     group_sep := sep; whitespace := whitespace o;
     default_start := default_start o; default_end := default_end o |}.

Definition with_decimal_sep (o : NumberRangeOptions) (sep : ascii) :=
  {| list_sep := list_sep o; range_sep := range_sep o; decimal_sep := sep;
     group_sep := group_sep o; whitespace := whitespace o;
     default_start := default_start o; default_end := default_end o |}.

Definition with_whitespace (o : NumberRangeOptions) (flag : bool) :=
  {| list_sep := list_sep o; range_sep := range_sep o; decimal_sep := decimal_sep o;
     group_sep := group_sep o; whitespace := flag;
     default_start := default_start o; default_end := default_end o |}.

Definition with_default_start (o : NumberRangeOptions) (def : Z) :=
  {| list_sep := list_sep o; range_sep := range_sep o; decimal_sep := decimal_sep o;
     group_sep := group_sep o; whitespace := whitespace o;
     default_start := Some def; default_end := default_end o |}.

Definition with_default_end (o : NumberRangeOptions) (def : Z) :=
  {| list_sep := list_sep o; range_sep := range_sep o; decimal_sep := decimal_sep o;
     group_sep := group_sep o; whitespace := whitespace o;
     default_start := default_start o; default_end := Some def |}.

(** [pub struct NumberRange<'a, T>] *)
Record NumberRange : Type := {
  numbers : list Number;
  original_repr : option str;
  options : NumberRangeOptions
}.

(** The [anyhow] errors of [parse], by the context they carry. *)
Inductive Error : Type :=
| NotANumber (num : str)                 (* "{num} Not a Number" *)
| TooManyRangeSeparators (sep : ascii) (seq_str : str)
| NothingToParse
| Panic.                                 (* [panic!] / index out of bounds *)

Inductive Result (A : Type) : Type :=
| Ok (a : A)
| Err (e : Error).
Arguments Ok {A} a.
Arguments Err {A} e.

(** [Iterator::collect::<Result<_>>]: the first [Err] in order wins. *)
Fixpoint collect {A} (l : list (Result A)) : Result (list A) :=
  match l with
  | [] => Ok []
  | Ok a :: r => match collect r with Ok l' => Ok (a :: l') | Err e => Err e end
  | Err e :: _ => Err e
  end.

(** [NumberRange::default] / [NumberRange::from_options] *)
Definition from_options (options : NumberRangeOptions) : NumberRange :=
  {| numbers := []; original_repr := None; options := options |}.

Definition nr_default : NumberRange := from_options options_new.

(** [NumberRange::original] *)
Definition original (r : NumberRange) : str :=
  match original_repr r with Some s => s | None => [] end.

(** ** Parsing (lib.rs 424-499) *)
Section Parse.
Variable o : NumberRangeOptions.

(** [sanitize_number] *)
Definition sanitize_number (num : str) : str :=
  let num := replace (group_sep o) [] (trim num) in
  let num := if whitespace o then join_split_whitespace num else num in
  replace (decimal_sep o) ["."%char] num.

(** [parse_number] *)
Definition parse_number (num : str) (def : option Z) : Result Z :=
  let s := sanitize_number num in
  match def, s with
  | Some d, [] => Ok d
  | _, _ => match from_str_i64 s with
            | Some v => Ok v
            | None => Err (NotANumber num)
            end
  end.

(** The closure mapped over the list items. *)
Definition parse_term (seq_str : str) : Result Number :=
  match count_matches (range_sep o) seq_str with
  | 0%nat => match parse_number seq_str None with
             | Ok v => Ok (Single v)
             | Err e => Err e
             end
  | 1%nat =>
      match split_once (range_sep o) seq_str with
      | Some (start, end_) =>
          match parse_number start (default_start o) with
          | Err e => Err e
          | Ok start =>
              match parse_number end_ (default_end o) with
              | Err e => Err e
              | Ok end_ => Ok (Range start 1 end_)
              end
          end
      | None => Err Panic
      end
  | 2%nat =>
      let defs := [default_start o; Some 1; default_end o] in
      let parts := splitn 3 (range_sep o) seq_str in
      match collect (map (fun '(i, s) =>
                            match nth_error defs i with
                            | Some d => parse_number s d
                            | None => Err Panic
                            end)
                         (combine (seq 0 (List.length parts)) parts)) with
      | Err e => Err e
      | Ok [a; b; c] => Ok (Range a b c)
      | Ok _ => Err Panic
      end
  | _ => Err (TooManyRangeSeparators (range_sep o) seq_str)
  end.

(** The term list of a non-empty input. *)
Definition parse_terms (numstr : str) : Result (list Number) :=
  collect (map parse_term (split (list_sep o) numstr)).
End Parse.

(** [NumberRange::parse] *)
Definition parse (r : NumberRange) : Result NumberRange :=
  match original_repr r with
  | Some numstr =>
      match sanitize_number (options r) numstr with
      | [] => Ok {| numbers := []; original_repr := original_repr r;
                    options := options r |}
      | _ =>
          match parse_terms (options r) numstr with
          | Ok ns => Ok {| numbers := ns; original_repr := original_repr r;
                           options := options r |}
          | Err e => Err e
          end
      end
  | None => Err NothingToParse
  end.

(** [NumberRange::parse_str] *)
Definition parse_str (r : NumberRange) (numstr : str) : Result NumberRange :=
  parse {| numbers := numbers r; original_repr := Some numstr;
           options := options r |}.

(** [NumberRangeOptions::parse] *)
Definition options_parse (o : NumberRangeOptions) (numstr : str)
  : Result NumberRange :=
  parse_str (from_options o) numstr.

(** [Iterator::next] on the struct: only [numbers] changes. *)
Definition nr_next (add : Z -> Z -> Z) (r : NumberRange)
  : option Z * NumberRange :=
  let (v, ns) := next add (numbers r) in
  (v, {| numbers := ns; original_repr := original_repr r;
         options := options r |}).

(** ** Formatting: [impl Display for NumberRange] (lib.rs 246-266) *)
Definition fmt_number (o : NumberRangeOptions) (n : Number) : str :=
  match n with
  | Single v => show_i64 v
  | Range s i e =>
      if i =? 1 then show_i64 s ++ [range_sep o] ++ show_i64 e
      else show_i64 s ++ [range_sep o] ++ show_i64 i ++ [range_sep o]
             ++ show_i64 e
  end.

Definition fmt (r : NumberRange) : str :=
  join [list_sep (options r)] (map (fmt_number (options r)) (numbers r)).

(** The values of the first [n] pulls of a parse result. *)
Definition collect_n (n : nat) (r : Result NumberRange) : Result (list (option Z)) :=
  match r with
  | Ok r => Ok (fst (run add_i64 n (numbers r)))
  | Err e => Err e
  end.

Example parse_tests :
  collect_n 4 (parse_str nr_default (lit "1: 3")) = Ok [Some 1; Some 2; Some 3; None]
  /\ collect_n 8 (parse_str nr_default (lit "3 , 5:10"))
     = Ok [Some 3; Some 5; Some 6; Some 7; Some 8; Some 9; Some 10; None]
  /\ collect_n 3 (parse_str nr_default (lit "1:-4")) = Ok [None; None; None]
  /\ collect_n 3 (parse_str nr_default (lit "4:-3:1")) = Ok [Some 4; Some 1; None]
  /\ collect_n 1 (parse_str nr_default (lit "1,,4")) = Err (NotANumber [])
  /\ collect_n 1 (parse_str nr_default (lit "1.0, 2")) = Err (NotANumber (lit "1.0"))
  /\ collect_n 1 (parse_str nr_default (lit "1:2:3:4"))
     = Err (TooManyRangeSeparators ":" (lit "1:2:3:4"))
  /\ collect_n 1 (parse nr_default) = Err NothingToParse.
Proof. vm_compute. repeat split. Qed.

Example fmt_tests :
  (match parse_str nr_default (lit "10:-4:4,1: 3,7") with
   | Ok r => fmt r | Err _ => [] end) = lit "10:-4:4,1:3,7".
Proof. vm_compute. reflexivity. Qed.

(** ** Auxiliary definitions for the statements *)

(** The arithmetic progression [s, s+i, ..., s+(k-1)i] as values
    returned by [next]. *)
Definition prog (s i : Z) (k : nat) : list (option Z) :=
  map (fun j => Some (s + Z.of_nat j * i)) (seq 0 k).

(** Number of values of a valid range: [(e - s) / i + 1]. *)
Definition range_len (s i e : Z) : nat := S (Z.to_nat ((e - s) / i)).

(** [n] pulls on the whole struct. *)
Fixpoint nr_run (add : Z -> Z -> Z) (n : nat) (r : NumberRange)
  : list (option Z) * NumberRange :=
  match n with
  | O => ([], r)
  | S n' =>
      let (v, r') := nr_next add r in
      let (vs, r'') := nr_run add n' r' in
      (v :: vs, r'')
  end.

(** Assigning the public [numbers] field ([rng.numbers = ...],
    [push_back], [pop_front], ...). *)
Definition set_numbers (r : NumberRange) (ns : list Number) : NumberRange :=
  {| numbers := ns; original_repr := original_repr r; options := options r |}.

(** * Proofs *)

(** ** Arithmetic of a valid range *)

Lemma prog_cons s i k : prog s i (S k) = Some s :: prog (s + i) i k.
Proof.
  unfold prog. cbn [seq map]. f_equal; [f_equal; lia|].
  rewrite <- seq_shift, map_map. apply map_ext. intro j. f_equal. lia.
Qed.

(** Quotient and remainder of [(e - s) / i] for a valid range. *)
Lemma valid_range_div s i e :
  is_valid (Range s i e) = true ->
  let q := (e - s) / i in
  0 <= q /\ e - s = i * q + (e - s) mod i /\
  (0 < i -> 0 <= (e - s) mod i < i) /\ (i < 0 -> i < (e - s) mod i <= 0).
Proof.
  intros Hv q. unfold is_valid in Hv.
  assert (Hi : i <> 0) by (intro; subst; apply Bool.orb_true_iff in Hv;
                           rewrite !Bool.andb_true_iff, !Z.leb_le, !Z.ltb_lt in Hv; lia).
  pose proof (Z.div_mod (e - s) i Hi) as Hdm.
  assert (Hb : (0 < i -> 0 <= (e - s) mod i < i) /\ (i < 0 -> i < (e - s) mod i <= 0))
    by (split; intro; [apply Z.mod_pos_bound | apply Z.mod_neg_bound]; lia).
  repeat split; try tauto; fold q in Hdm.
  apply Bool.orb_true_iff in Hv.
  rewrite !Bool.andb_true_iff, !Z.leb_le, !Z.ltb_lt in Hv. nia.
Qed.

Lemma valid_step_nonzero s i e : is_valid (Range s i e) = true -> i <> 0.
Proof.
  unfold is_valid. rewrite Bool.orb_true_iff, !Bool.andb_true_iff, !Z.leb_le, !Z.ltb_lt.
  lia.
Qed.

Lemma step_valid_iff s i e :
  is_valid (Range s i e) = true ->
  is_valid (Range (s + i) i e) = true <-> 1 <= (e - s) / i.
Proof.
  intros Hv. pose proof (valid_range_div s i e Hv) as (Hq & Hdm & Hp & Hn).
  set (q := (e - s) / i) in *. set (r := (e - s) mod i) in *.
  unfold is_valid in *. rewrite Bool.orb_true_iff in *.
  rewrite !Bool.andb_true_iff, !Z.leb_le, !Z.ltb_lt in *.
  split; intros H.
  - destruct H as [[H1 H2] | [H1 H2]]; nia.
  - destruct Hv as [[H1 H2] | [H1 H2]]; [left | right]; split; auto; nia.
Qed.

Section RangeRun.
Variable add : Z -> Z -> Z.
Variables (i e : Z).

(** Where [add] agrees with [+] on the values of the range. *)
Definition add_exact_on (s : Z) : Prop :=
  forall x, Z.min s e <= x <= Z.max s e -> add x i = x + i.

Lemma run_valid_range k : forall s rest,
  add_exact_on s ->
  is_valid (Range s i e) = true ->
  Z.to_nat ((e - s) / i) = k ->
  run add (S k) (Range s i e :: rest) = (prog s i (S k), rest).
Proof.
  induction k as [|k IH]; intros s rest Hadd Hv Hk.
  - pose proof (valid_range_div s i e Hv) as (Hq & _).
    assert (Hq0 : (e - s) / i = 0) by lia.
    cbn [run next]. rewrite Hv.
    rewrite (Hadd s) by lia.
    destruct (is_valid (Range (s + i) i e)) eqn:Hn.
    + apply (step_valid_iff s i e Hv) in Hn. lia.
    + rewrite prog_cons. unfold prog. reflexivity.
  - pose proof (valid_range_div s i e Hv) as (Hq & _).
    assert (Hq1 : 1 <= (e - s) / i) by lia.
    pose proof Hq1 as Hn. apply (step_valid_iff s i e Hv) in Hn.
    assert (Hdiv : (e - (s + i)) / i = (e - s) / i - 1).
    { replace (e - (s + i)) with (e - s + (-1) * i) by ring.
      rewrite Z.div_add; [lia|]. apply (valid_step_nonzero s i e Hv). }
    assert (Hadd' : add_exact_on (s + i)).
    { intros x Hx. apply Hadd.
      unfold is_valid in Hv, Hn. rewrite Bool.orb_true_iff in Hv, Hn.
      rewrite !Bool.andb_true_iff, !Z.leb_le, !Z.ltb_lt in Hv, Hn. lia. }
    cbn [run next]. rewrite Hv. rewrite (Hadd s) by lia. rewrite Hn.
    specialize (IH (s + i) rest Hadd' Hn ltac:(lia)).
    cbn [run] in IH. rewrite IH. rewrite (prog_cons s i (S k)). reflexivity.
Qed.
End RangeRun.

(** ** [i64] arithmetic *)

Lemma wrap_i64_id z : in_i64 z -> wrap_i64 z = z.
Proof.
  unfold in_i64, i64_min, i64_max, wrap_i64. intros H.
  rewrite Z.mod_small; lia.
Qed.

Lemma wrap_i64_range z : in_i64 (wrap_i64 z).
Proof.
  unfold in_i64, i64_min, i64_max, wrap_i64.
  pose proof (Z.mod_pos_bound (z + 2 ^ 63) (2 ^ 64) ltac:(lia)). lia.
Qed.

Lemma add_i64_exact_on s i e :
  in_i64 s -> in_i64 i -> in_i64 e -> in_i64 (e + i) ->
  is_valid (Range s i e) = true ->
  add_exact_on add_i64 i e s.
Proof.
  intros Hs Hi He Hei Hv x Hx. unfold add_i64. apply wrap_i64_id.
  unfold is_valid in Hv.
  rewrite Bool.orb_true_iff, !Bool.andb_true_iff, !Z.leb_le, !Z.ltb_lt in Hv.
  unfold in_i64 in *. lia.
Qed.

(** ** Generic facts on [next] and [run] *)

Lemma next_skip_invalid add s i e rest :
  is_valid (Range s i e) = false ->
  next add (Range s i e :: rest) = next add rest.
Proof. intros H. cbn [next]. rewrite H. reflexivity. Qed.

Lemma run_skip_invalid add s i e rest n :
  is_valid (Range s i e) = false ->
  run add (S n) (Range s i e :: rest) = run add (S n) rest.
Proof. intros H. cbn [run]. rewrite next_skip_invalid by exact H. reflexivity. Qed.

Lemma run_nil add m : run add m [] = (repeat None m, []).
Proof. induction m as [|m IH]; cbn; [reflexivity|]. rewrite IH. reflexivity. Qed.

Lemma run_add add n m ns :
  run add (n + m) ns =
  let (vs, ns') := run add n ns in
  let (ws, ns'') := run add m ns' in (vs ++ ws, ns'').
Proof.
  revert ns. induction n as [|n IH]; intros ns; cbn [run Nat.add].
  - destruct (run add m ns). reflexivity.
  - destruct (next add ns) as [v ns1]. rewrite IH.
    destruct (run add n ns1) as [vs ns2]. destruct (run add m ns2). reflexivity.
Qed.

(** The deque becomes empty after [n] pulls and stays so. *)
Definition drains_in (add : Z -> Z -> Z) (n : nat) (ns : list Number) : Prop :=
  forall m, run add (n + m) ns = (fst (run add n ns) ++ repeat None m, []).

(** A term whose arithmetic does not leave [i64]. *)
Definition no_overflow_term (t : Number) : Prop :=
  match t with
  | Single _ => True
  | Range s i e =>
      is_valid t = true -> in_i64 s /\ in_i64 i /\ in_i64 e /\ in_i64 (e + i)
  end.

(** ** Claim theorems: iteration *)

(** A valid term [Range(s, i, e)] of [i64] whose
    [e + i] does not overflow is expanded by [next] into exactly the
    progression [s, s+i, ..., s+(k-1)i] with [k = (e-s)/i + 1], the
    last value the last one at or before [e] (at or after [e] for a
    negative step), after which the term is gone. *)
Theorem next_range_progression_i64 s i e rest :
  in_i64 s -> in_i64 i -> in_i64 e -> in_i64 (e + i) ->
  is_valid (Range s i e) = true ->
  run add_i64 (range_len s i e) (Range s i e :: rest)
    = (prog s i (range_len s i e), rest)
  /\ (0 < i -> s + (Z.of_nat (range_len s i e) - 1) * i <= e
               < s + Z.of_nat (range_len s i e) * i)
  /\ (i < 0 -> s + Z.of_nat (range_len s i e) * i < e
               <= s + (Z.of_nat (range_len s i e) - 1) * i).
Proof.
  intros Hs Hi He Hei Hv.
  pose proof (valid_range_div s i e Hv) as (Hq & Hdm & Hp & Hn).
  assert (Hk : Z.of_nat (range_len s i e) = (e - s) / i + 1)
    by (unfold range_len; lia).
  rewrite Hk. split; [|split; intros; nia].
  unfold range_len. apply run_valid_range; auto.
  apply add_i64_exact_on; auto.
Qed.

(** C1 at its failing input.  [Range(i64::MAX, 1, i64::MAX)] is valid;
    after it emits [i64::MAX] the candidate [i64::MAX + 1] overflows
    (a panic in a debug build); wrapped, as in a release build, it is
    [i64::MIN], which is valid again: the term is not removed and the
    next value is [i64::MIN]. *)
Lemma next_range_overflow_cex :
  is_valid (Range i64_max 1 i64_max) = true
  /\ run add_i64 2 [Range i64_max 1 i64_max]
     = ([Some i64_max; Some i64_min], [Range (i64_min + 1) 1 i64_max]).
Proof. vm_compute. split; reflexivity. Qed.

(** [Range(10, -4, 4)] gives [10, 6]. *)
Lemma next_range_progression_i64_witness :
  run add_i64 (range_len 10 (-4) 4) [Range 10 (-4) 4]
    = (prog 10 (-4) (range_len 10 (-4) 4), [])
  /\ prog 10 (-4) (range_len 10 (-4) 4) = [Some 10; Some 6].
Proof.
  split; [|reflexivity].
  apply (next_range_progression_i64 10 (-4) 4 []);
    unfold in_i64, i64_min, i64_max; try lia; reflexivity.
Defined.

(** C2.  [is_valid]: a [Single] is always valid; a [Range(s, i, e)]
    is valid iff ([s <= e] and [i > 0]) or ([s >= e] and [i < 0]);
    so [Range(s, i, s)] is valid for every nonzero step and a zero
    step is never valid. *)
Theorem is_valid_spec :
  (forall n, is_valid n = true <->
     match n with
     | Single _ => True
     | Range s i e => (s <= e /\ 0 < i) \/ (s >= e /\ i < 0)
     end)
  /\ (forall s i, is_valid (Range s i s) = negb (i =? 0))
  /\ (forall s e, is_valid (Range s 0 e) = false).
Proof.
  split; [|split].
  - intros [v | s i e]; cbn [is_valid]; [tauto|].
    rewrite Bool.orb_true_iff, !Bool.andb_true_iff, !Z.leb_le, !Z.ltb_lt. lia.
  - intros s i. cbn [is_valid]. rewrite Z.leb_refl. cbn.
    destruct (Z.ltb_spec 0 i), (Z.ltb_spec i 0), (Z.eqb_spec i 0); cbn; lia.
  - intros s e. cbn [is_valid]. rewrite Z.ltb_irrefl, !Bool.andb_false_r. reflexivity.
Qed.

(** C5.  When the front term is an invalid [Range], [next] drops it
    without returning a value and answers as [next] on the remaining
    terms (a value, or [None] when none are left); [next] has no error
    outcome. *)
Theorem next_invalid_front add s i e rest :
  is_valid (Range s i e) = false ->
  next add (Range s i e :: rest) = next add rest.
Proof. apply next_skip_invalid. Qed.

(** C5 witness. *)
Lemma next_invalid_front_witness :
  is_valid (Range 4 1 2) = false
  /\ next add_i64 [Range 4 1 2; Single 7] = (Some 7, [])
  /\ next add_i64 [Range 3 0 3] = (None, []).
Proof.
  split; [reflexivity|split].
  - rewrite (next_invalid_front add_i64 4 1 2 [Single 7]) by reflexivity. reflexivity.
  - rewrite (next_invalid_front add_i64 3 0 3 []) by reflexivity. reflexivity.
Defined.

Lemma drains_in_cons_single add v rest n :
  drains_in add n rest -> drains_in add (S n) (Single v :: rest).
Proof.
  intros H m. cbn [run next Nat.add]. specialize (H m).
  destruct (run add (n + m) rest) eqn:E1. destruct (run add n rest) eqn:E2.
  cbn in *. inversion H; subst. reflexivity.
Qed.

Lemma drains_in_cons_invalid add s i e rest n :
  is_valid (Range s i e) = false ->
  drains_in add n rest -> drains_in add (S n) (Range s i e :: rest).
Proof.
  intros Hv H m. rewrite Nat.add_succ_l, !run_skip_invalid by exact Hv.
  replace (S (n + m)) with (n + S m)%nat by lia.
  replace (S n) with (n + 1)%nat by lia.
  rewrite (H (S m)), (H 1%nat). cbn. rewrite <- app_assoc. reflexivity.
Qed.

Lemma drains_in_cons_valid add s i e rest n :
  add_exact_on add i e s -> is_valid (Range s i e) = true ->
  drains_in add n rest -> drains_in add (range_len s i e + n) (Range s i e :: rest).
Proof.
  intros Ha Hv H m. rewrite <- Nat.add_assoc, !run_add.
  unfold range_len. rewrite (run_valid_range add i e _ s rest Ha Hv eq_refl).
  rewrite (H m). destruct (run add n rest). cbn. rewrite app_assoc. reflexivity.
Qed.

(** When no [Range] term overflows [i64] ([e + i]
    within [i64] for the valid ones), finitely many pulls empty the
    deque, and every later pull returns [None] and leaves it empty. *)
Theorem drain_terminates_i64 ns :
  Forall no_overflow_term ns ->
  exists n, snd (run add_i64 n ns) = [] /\ drains_in add_i64 n ns.
Proof.
  intros H.
  assert (Hd : exists n, drains_in add_i64 n ns).
  { induction H as [|t rest Ht Hrest IH].
    - exists 0%nat. intro m. rewrite run_nil. reflexivity.
    - destruct IH as [n IH]. destruct t as [v | s i e].
      + exists (S n). apply drains_in_cons_single, IH.
      + destruct (is_valid (Range s i e)) eqn:Hv.
        * destruct (Ht Hv) as (Hs & Hi & He & Hei).
          exists (range_len s i e + n)%nat.
          apply drains_in_cons_valid; auto. apply add_i64_exact_on; auto.
        * exists (S n). apply drains_in_cons_invalid; auto. }
  destruct Hd as [n Hd]. exists n. split; [|exact Hd].
  specialize (Hd 0%nat). rewrite Nat.add_0_r in Hd. rewrite Hd. reflexivity.
Qed.

(** A deque of a [Single], a valid and an invalid [Range] drains. *)
Lemma drain_terminates_i64_witness :
  exists n, snd (run add_i64 n [Single 1; Range 3 2 6; Range 4 1 2]) = []
            /\ drains_in add_i64 n [Single 1; Range 3 2 6; Range 4 1 2].
Proof.
  apply drain_terminates_i64.
  repeat apply Forall_cons; try apply Forall_nil; cbn; try tauto;
    intros _; unfold in_i64, i64_min, i64_max; lia.
Defined.

Lemma range_max_stays x n :
  in_i64 x ->
  exists y, in_i64 y /\ snd (run add_i64 n [Range x 1 i64_max]) = [Range y 1 i64_max].
Proof.
  revert x. induction n as [|n IH]; intros x Hx; [exists x; auto|].
  assert (Hv : forall z, in_i64 z -> is_valid (Range z 1 i64_max) = true).
  { intros z Hz. unfold in_i64 in Hz. cbn [is_valid].
    apply Bool.orb_true_iff. left. apply Bool.andb_true_iff.
    rewrite Z.leb_le, Z.ltb_lt. lia. }
  cbn [run next]. rewrite (Hv x Hx), (Hv (add_i64 x 1) (wrap_i64_range (x + 1))).
  destruct (IH (add_i64 x 1) (wrap_i64_range (x + 1))) as (y & Hy & E).
  exists y. split; auto. destruct (run add_i64 n _). cbn in *. exact E.
Qed.

(** C8 at its failing input.  The bounded term
    [Range(i64::MAX, 1, i64::MAX)] is never removed when the addition
    wraps, as in a release build: [i64::MAX + 1] becomes [i64::MIN] and
    the term stays valid after every pull (a debug build panics at the
    first overflow instead). *)
Lemma drain_overflow_cex :
  ~ exists n, snd (run add_i64 n [Range i64_max 1 i64_max]) = [].
Proof.
  intros [n Hn].
  destruct (range_max_stays i64_max n) as (y & _ & E);
    [unfold in_i64, i64_min, i64_max; lia|].
  rewrite Hn in E. discriminate.
Qed.

(** C9.  [original()] is [""] before any parse, the last string given
    to [parse_str] after it (a re-[parse] keeps it), and pulls or
    assignments to [numbers] change only [numbers]: [original()] and
    [options] stay as they were. *)
Theorem original_frame :
  original nr_default = []
  /\ (forall o, original (from_options o) = [])
  /\ (forall r x, match parse_str r x with
                  | Ok r' => original r' = x /\ options r' = options r
                  | Err _ => True
                  end)
  /\ (forall r, match parse r with
                | Ok r' => original r' = original r
                | Err _ => True
                end)
  /\ (forall add n r,
        nr_run add n r
        = (fst (run add n (numbers r)), set_numbers r (snd (run add n (numbers r)))))
  /\ (forall r ns, original (set_numbers r ns) = original r
                   /\ options (set_numbers r ns) = options r).
Proof.
  split; [reflexivity|]. split; [reflexivity|]. split; [|split; [|split]].
  - intros r x. unfold parse_str, parse. cbn [original_repr options].
    destruct (sanitize_number _ x); [split; reflexivity|].
    destruct (parse_terms _ _); [split; reflexivity | exact I].
  - intros r. unfold parse.
    destruct (original_repr r) as [x|] eqn:Ex; [|exact I].
    destruct (sanitize_number _ x); [unfold original; cbn; rewrite Ex; reflexivity|].
    destruct (parse_terms _ _); [unfold original; cbn; rewrite Ex; reflexivity | exact I].
  - intros add n. induction n as [|n IH]; intros r.
    + destruct r. reflexivity.
    + cbn [nr_run run]. unfold nr_next.
      destruct (next add (numbers r)) as [v ns] eqn:E. rewrite IH. cbn [numbers].
      destruct (run add n ns). reflexivity.
  - intros r ns. split; reflexivity.
Qed.

(** ** Claim theorems: parsing *)

Definition dash_options : NumberRangeOptions := with_range_sep options_new "-".

(** C3 counterexample.  ["1--4"] with [range_sep = '-'] does not fail:
    it parses. *)
Lemma parse_1__4_cex :
  exists r, options_parse dash_options (lit "1--4") = Ok r.
Proof. eexists. vm_compute. reflexivity. Qed.

(** C3 (amended).  ["1--4"] with [range_sep = '-'] has two ['-'], so it
    is read as [start-step-end] with an empty step, which defaults to
    [1]: the result is the single term [Range(1, 1, 4)], draining to
    [1, 2, 3, 4]. *)
Theorem parse_1__4 :
  match options_parse dash_options (lit "1--4") with
  | Ok r => numbers r = [Range 1 1 4]
            /\ fst (run add_i64 5 (numbers r))
               = [Some 1; Some 2; Some 3; Some 4; None]
  | Err _ => False
  end.
Proof. vm_compute. split; reflexivity. Qed.

(** ** Strings: splitting, counting, replacing *)

Lemma ascii_eqb_false a b : a <> b -> ascii_eqb a b = false.
Proof. intro H. unfold ascii_eqb. apply Ascii.eqb_neq. exact H. Qed.

Lemma ascii_eqb_refl' a : ascii_eqb a a = true.
Proof. unfold ascii_eqb. apply Ascii.eqb_refl. Qed.

Section NoOcc.
Variable c : ascii.

Lemma split_nocc s : Forall (fun x => x <> c) s -> split c s = [s].
Proof.
  induction 1 as [|x s Hx _ IH]; [reflexivity|].
  cbn. rewrite ascii_eqb_false by exact Hx. rewrite IH. reflexivity.
Qed.

Lemma split_app a b :
  Forall (fun x => x <> c) a -> split c (a ++ c :: b) = a :: split c b.
Proof.
  induction 1 as [|x a Hx _ IH]; cbn.
  - rewrite ascii_eqb_refl'. reflexivity.
  - rewrite ascii_eqb_false by exact Hx. rewrite IH. reflexivity.
Qed.

Lemma split_join l :
  l <> [] -> Forall (Forall (fun x => x <> c)) l -> split c (join [c] l) = l.
Proof.
  intros Hl H. induction H as [|p l Hp Hl' IH]; [congruence|].
  destruct l as [|q l].
  - apply split_nocc, Hp.
  - change (join [c] (p :: q :: l)) with (p ++ [c] ++ join [c] (q :: l)).
    cbn [app]. rewrite split_app by exact Hp. rewrite IH by congruence.
    reflexivity.
Qed.

Lemma count_matches_app a b :
  count_matches c (a ++ b) = (count_matches c a + count_matches c b)%nat.
Proof. unfold count_matches. rewrite filter_app, length_app. reflexivity. Qed.

Lemma count_matches_nocc s : Forall (fun x => x <> c) s -> count_matches c s = 0%nat.
Proof.
  induction 1 as [|x s Hx _ IH]; [reflexivity|].
  unfold count_matches in *. cbn. rewrite ascii_eqb_false by exact Hx. exact IH.
Qed.

Lemma count_matches_sep : count_matches c [c] = 1%nat.
Proof. unfold count_matches. cbn. rewrite ascii_eqb_refl'. reflexivity. Qed.

Lemma split_once_app a b :
  Forall (fun x => x <> c) a -> split_once c (a ++ c :: b) = Some (a, b).
Proof.
  induction 1 as [|x a Hx _ IH]; cbn.
  - rewrite ascii_eqb_refl'. reflexivity.
  - rewrite ascii_eqb_false by exact Hx. rewrite IH. reflexivity.
Qed.

Lemma split_once_nocc s : Forall (fun x => x <> c) s -> split_once c s = None.
Proof.
  induction 1 as [|x s Hx _ IH]; cbn; [reflexivity|].
  rewrite ascii_eqb_false by exact Hx. rewrite IH. reflexivity.
Qed.

Lemma replace_nocc r s : Forall (fun x => x <> c) s -> replace c r s = s.
Proof.
  induction 1 as [|x s Hx _ IH]; [reflexivity|].
  unfold replace in *. cbn. rewrite ascii_eqb_false by exact Hx. cbn. rewrite IH.
  reflexivity.
Qed.

Lemma replace_self s : replace c [c] s = s.
Proof.
  induction s as [|x s IH]; [reflexivity|]. unfold replace in *. cbn.
  destruct (ascii_eqb x c) eqn:E; cbn; rewrite IH; [|reflexivity].
  unfold ascii_eqb in E. apply Ascii.eqb_eq in E. subst. reflexivity.
Qed.
End NoOcc.

Lemma trim_start_nows s : Forall (fun x => is_whitespace x = false) s -> trim_start s = s.
Proof. intros H. destruct H as [|x s Hx _]; cbn; [reflexivity|]. rewrite Hx. reflexivity. Qed.

Lemma trim_nows s : Forall (fun x => is_whitespace x = false) s -> trim s = s.
Proof.
  intros H. unfold trim. rewrite (trim_start_nows s) by exact H.
  rewrite (trim_start_nows (rev s)); [apply rev_involutive|].
  apply Forall_rev, H.
Qed.

Lemma join_in sep l c : In c (join sep l) -> In c sep \/ exists p, In p l /\ In c p.
Proof.
  induction l as [|p l IH]; cbn; [tauto|].
  destruct l as [|q l]; [intros; right; exists p; cbn; tauto|].
  intros H. apply in_app_or in H as [H | H]; [right; exists p; tauto|].
  apply in_app_or in H as [H | H]; [tauto|].
  destruct (IH H) as [H' | (p' & Hp' & Hc)]; [tauto|]. right. exists p'. cbn in *. tauto.
Qed.

Lemma join_nonempty sep p l : p <> [] -> join sep (p :: l) <> [].
Proof. destruct l; cbn; [tauto|]. destruct p; cbn; congruence. Qed.

(** ** [i64]: [from_str] inverts [Display] *)

Definition digit_like (c : ascii) : Prop := exists d, 0 <= d < 10 /\ c = digit_char d.

Lemma digit_char_nat d : 0 <= d < 10 -> nat_of_ascii (digit_char d) = Z.to_nat (d + 48).
Proof. intros H. unfold digit_char. apply Ascii.nat_ascii_embedding. lia. Qed.

Lemma digit_val_char d : 0 <= d < 10 -> digit_val (digit_char d) = Some d.
Proof.
  intros H. unfold digit_val. rewrite digit_char_nat by exact H.
  destruct (Nat.leb_spec 48 (Z.to_nat (d + 48))), (Nat.leb_spec (Z.to_nat (d + 48)) 57);
    cbn; try lia.
  f_equal. rewrite Z2Nat.id; lia.
Qed.

Lemma digits_val_app acc a b :
  digits_val acc (a ++ b)
  = match digits_val acc a with Some x => digits_val x b | None => None end.
Proof.
  revert acc. induction a as [|x a IH]; intros acc; cbn; [reflexivity|].
  destruct (digit_val x); [apply IH | reflexivity].
Qed.

Lemma dec_rev_digits f : forall n, 0 <= n -> Forall digit_like (dec_rev f n).
Proof.
  induction f as [|f IH]; intros n Hn; cbn [dec_rev]; [constructor|].
  constructor.
  - exists (n mod 10). split; [apply Z.mod_pos_bound; lia | reflexivity].
  - destruct (n / 10 =? 0); [constructor|]. apply IH. apply Z.div_pos; lia.
Qed.

Lemma dec_rev_val f : forall n acc, 0 <= n < 10 ^ Z.of_nat f ->
  exists k, 0 <= k /\ digits_val acc (rev (dec_rev f n)) = Some (acc * 10 ^ k + n).
Proof.
  induction f as [|f IH]; intros n acc Hn.
  - exists 0. cbn in *. split; [lia|]. f_equal. lia.
  - pose proof (Z.div_mod n 10 ltac:(lia)) as Hdm.
    pose proof (Z.mod_pos_bound n 10 ltac:(lia)) as Hm.
    rewrite Nat2Z.inj_succ, Z.pow_succ_r in Hn by lia.
    cbn [dec_rev rev]. destruct (Z.eqb_spec (n / 10) 0) as [E | E].
    + exists 1. cbn. rewrite digit_val_char by exact Hm. split; [lia|]. f_equal. lia.
    + destruct (IH (n / 10) acc) as (k & Hk & Hv).
      { split; [apply Z.div_pos; lia | apply Z.div_lt_upper_bound; lia]. }
      exists (k + 1). rewrite digits_val_app, Hv. cbn.
      rewrite digit_val_char by exact Hm. split; [lia|]. f_equal.
      rewrite Z.pow_add_r by lia. lia.
Qed.

Lemma show_digits_val n : 0 <= n -> digits_val 0 (show_digits n) = Some n.
Proof.
  intros Hn. unfold show_digits.
  assert (Hb : n < 10 ^ Z.of_nat (S (Z.to_nat (Z.log2 n)))).
  { rewrite Nat2Z.inj_succ, Z2Nat.id by apply Z.log2_nonneg.
    destruct (Z.eq_dec n 0) as [->|Hn0]; [cbn; lia|].
    pose proof (Z.log2_spec n ltac:(lia)) as [_ H2].
    pose proof (Z.log2_nonneg n).
    assert (2 ^ Z.succ (Z.log2 n) <= 10 ^ Z.succ (Z.log2 n))
      by (apply Z.pow_le_mono_l; lia). lia. }
  destruct (dec_rev_val _ n 0 (conj Hn Hb)) as (k & _ & ->). reflexivity.
Qed.

Lemma show_digits_cons n : exists c s, show_digits n = c :: s.
Proof.
  unfold show_digits. cbn [dec_rev rev].
  destruct (rev _) as [|c s] eqn:E; [exists (digit_char (n mod 10)), []; reflexivity|].
  exists c, (s ++ [digit_char (n mod 10)]). reflexivity.
Qed.

Lemma show_digits_chars n : 0 <= n -> Forall digit_like (show_digits n).
Proof. intros Hn. apply Forall_rev, dec_rev_digits, Hn. Qed.

Definition num_char (c : ascii) : Prop := c = "-"%char \/ digit_like c.

Lemma show_i64_chars z : Forall num_char (show_i64 z).
Proof.
  unfold show_i64. destruct (Z.ltb_spec z 0).
  - constructor; [left; reflexivity|].
    eapply Forall_impl; [|apply show_digits_chars; lia]. intros c H'. right. exact H'.
  - eapply Forall_impl; [|apply show_digits_chars; lia]. intros c H'. right. exact H'.
Qed.

Lemma digit_like_nat c : digit_like c -> (48 <= nat_of_ascii c <= 57)%nat.
Proof. intros (d & Hd & ->). rewrite digit_char_nat by exact Hd. lia. Qed.

Lemma num_char_props c :
  num_char c ->
  is_whitespace c = false /\ c <> ":"%char /\ c <> ","%char /\ c <> "_"%char
  /\ c <> "+"%char.
Proof.
  intros [-> | Hd]; [repeat split; discriminate|].
  apply digit_like_nat in Hd.
  repeat split; try (intros ->; cbn in Hd; lia).
  unfold is_whitespace. set (m := nat_of_ascii c) in *.
  destruct (Nat.leb_spec 9 m), (Nat.leb_spec m 13), (Nat.eqb_spec m 32); cbn; lia.
Qed.

Lemma digits_val_nonneg ds : forall acc v, 0 <= acc -> digits_val acc ds = Some v -> 0 <= v.
Proof.
  induction ds as [|d ds IH]; intros acc v Ha H; cbn in H; [congruence|].
  destruct (digit_val d) as [x|] eqn:E; [|discriminate].
  unfold digit_val in E.
  destruct (Nat.leb 48 (nat_of_ascii d) && Nat.leb (nat_of_ascii d) 57) eqn:E2;
    [|discriminate].
  apply Bool.andb_true_iff in E2 as [E2 _]. apply Nat.leb_le in E2.
  injection E as <-. eapply IH; [|exact H]. lia.
Qed.

Lemma from_str_i64_range s v : from_str_i64 s = Some v -> in_i64 v.
Proof.
  unfold from_str_i64, in_i64, i64_min, i64_max.
  assert (Hp : forall ds, match digits_val 0 ds with
                          | Some v => if v <=? 2 ^ 63 - 1 then Some v else None
                          | None => None end = Some v -> - 2 ^ 63 <= v <= 2 ^ 63 - 1).
  { intros ds. destruct (digits_val 0 ds) as [x|] eqn:E; [|discriminate].
    apply digits_val_nonneg in E; [|lia].
    destruct (Z.leb_spec x (2 ^ 63 - 1)); [|discriminate]. intros [= <-]. lia. }
  assert (Hn : forall ds, match digits_val 0 ds with
                          | Some v => if - 2 ^ 63 <=? - v then Some (- v) else None
                          | None => None end = Some v -> - 2 ^ 63 <= v <= 2 ^ 63 - 1).
  { intros ds. destruct (digits_val 0 ds) as [x|] eqn:E; [|discriminate].
    apply digits_val_nonneg in E; [|lia].
    destruct (Z.leb_spec (- 2 ^ 63) (- x)); [|discriminate]. intros [= <-]. lia. }
  destruct s as [|c [|c' ds]]; [discriminate| |].
  - destruct (ascii_eqb c "+" || ascii_eqb c "-")%char; [discriminate|]. apply Hp.
  - destruct (ascii_eqb c "+")%char; [apply Hp|].
    destruct (ascii_eqb c "-")%char; [apply Hn | apply Hp].
Qed.

Lemma from_str_show_i64 z : in_i64 z -> from_str_i64 (show_i64 z) = Some z.
Proof.
  intros Hz. unfold in_i64, i64_min, i64_max in Hz. unfold show_i64.
  destruct (Z.ltb_spec z 0) as [Hneg | Hpos].
  - destruct (show_digits_cons (- z)) as (c & s & E).
    rewrite E. cbv beta iota zeta delta [from_str_i64].
    replace (ascii_eqb "-" "+")%char with false by reflexivity.
    replace (ascii_eqb "-" "-")%char with true by reflexivity.
    rewrite <- E, show_digits_val by lia.
    destruct (Z.leb_spec i64_min (- - z)); [f_equal; lia | unfold i64_min in *; lia].
  - destruct (show_digits_cons z) as (c & s & E).
    assert (Hc : num_char c).
    { right. pose proof (show_digits_chars z Hpos) as H. rewrite E in H.
      inversion H; assumption. }
    destruct (num_char_props c Hc) as (_ & _ & _ & _ & Hplus).
    assert (Hminus : c <> "-"%char).
    { intros ->. destruct Hc as [_ | Hd]; [|apply digit_like_nat in Hd; cbn in Hd; lia].
      pose proof (show_digits_chars z Hpos) as H. rewrite E in H.
      inversion H as [|? ? Hd]. apply digit_like_nat in Hd. cbn in Hd. lia. }
    unfold from_str_i64. rewrite E.
    rewrite (ascii_eqb_false c "+") by exact Hplus.
    rewrite (ascii_eqb_false c "-") by exact Hminus.
    rewrite <- E. rewrite show_digits_val by lia.
    destruct (Z.leb_spec z i64_max); [|unfold i64_max in *; lia].
    destruct s; reflexivity.
Qed.

(** ** Parsing what [Display] prints, under the default options *)

Definition term_in_i64 (n : Number) : Prop :=
  match n with
  | Single v => in_i64 v
  | Range s i e => in_i64 s /\ in_i64 i /\ in_i64 e
  end.

Definition clean_char (c : ascii) : Prop := is_whitespace c = false /\ c <> "_"%char.

Lemma sanitize_default_clean s :
  Forall clean_char s -> sanitize_number options_new s = s.
Proof.
  intros H. unfold sanitize_number. cbn [group_sep whitespace decimal_sep options_new].
  rewrite trim_nows by (eapply Forall_impl; [|exact H]; intros c [Hc _]; exact Hc).
  rewrite (replace_nocc "_"%char [] s)
    by (eapply Forall_impl; [|exact H]; intros c [_ Hc]; exact Hc).
  apply replace_self.
Qed.

Lemma show_i64_not z (P : ascii -> Prop) :
  (forall c, num_char c -> P c) -> Forall P (show_i64 z).
Proof. intros H. eapply Forall_impl; [exact H | apply show_i64_chars]. Qed.

Lemma show_i64_clean z : Forall clean_char (show_i64 z).
Proof. apply show_i64_not. intros c Hc. apply num_char_props in Hc. unfold clean_char. tauto. Qed.

Lemma show_i64_no_colon z : Forall (fun x => x <> ":"%char) (show_i64 z).
Proof. apply show_i64_not. intros c Hc. apply num_char_props in Hc. tauto. Qed.

Lemma show_i64_no_comma z : Forall (fun x => x <> ","%char) (show_i64 z).
Proof. apply show_i64_not. intros c Hc. apply num_char_props in Hc. tauto. Qed.

Lemma show_i64_cons z : exists c s, show_i64 z = c :: s.
Proof.
  unfold show_i64. destruct (z <? 0); [eexists; eexists; reflexivity|].
  apply show_digits_cons.
Qed.

Lemma parse_number_show z def :
  in_i64 z -> parse_number options_new (show_i64 z) def = Ok z.
Proof.
  intros Hz. unfold parse_number. rewrite sanitize_default_clean by apply show_i64_clean.
  destruct (show_i64_cons z) as (c & s & E).
  assert (Hf : from_str_i64 (show_i64 z) = Some z) by (apply from_str_show_i64, Hz).
  rewrite E in *. destruct def; rewrite Hf; reflexivity.
Qed.

Lemma parse_term_fmt n :
  term_in_i64 n ->
  parse_term options_new (fmt_number options_new n) = Ok n.
Proof.
  intros Hn. destruct n as [v | s i e]; cbn [fmt_number range_sep options_new].
  - unfold parse_term. cbn [range_sep options_new].
    rewrite count_matches_nocc by apply show_i64_no_colon.
    rewrite parse_number_show by exact Hn. reflexivity.
  - destruct Hn as (Hs & Hi & He).
    destruct (Z.eqb_spec i 1) as [-> | Hi1]; unfold parse_term; cbn [range_sep options_new].
    + rewrite !count_matches_app, count_matches_sep,
        !count_matches_nocc by apply show_i64_no_colon.
      cbn [Nat.add app]. rewrite split_once_app by apply show_i64_no_colon.
      rewrite !parse_number_show by assumption. reflexivity.
    + rewrite !count_matches_app, count_matches_sep,
        !count_matches_nocc by apply show_i64_no_colon.
      cbn [Nat.add app splitn]. rewrite split_once_app by apply show_i64_no_colon.
      rewrite split_once_app by apply show_i64_no_colon.
      cbn [List.length seq combine map nth_error].
      rewrite !parse_number_show by assumption. reflexivity.
Qed.

Lemma fmt_number_chars n :
  Forall (fun c => num_char c \/ c = ":"%char) (fmt_number options_new n).
Proof.
  assert (Hs : forall z, Forall (fun c => num_char c \/ c = ":"%char) (show_i64 z))
    by (intro z; apply show_i64_not; tauto).
  destruct n as [v | s i e]; cbn [fmt_number range_sep options_new]; [apply Hs|].
  destruct (i =? 1); repeat (apply Forall_app; split); auto.
Qed.

Lemma fmt_number_cons n : exists c s, fmt_number options_new n = c :: s.
Proof.
  destruct n as [v | s i e]; cbn [fmt_number]; [apply show_i64_cons|].
  destruct (show_i64_cons s) as (c & t & ->).
  destruct (i =? 1); eexists; eexists; reflexivity.
Qed.

Lemma collect_map_ok {A} (l : list A) : collect (map Ok l) = Ok l.
Proof. induction l as [|a l IH]; cbn; [reflexivity|]. rewrite IH. reflexivity. Qed.

Lemma parse_str_fmt ns x :
  ns <> [] -> Forall term_in_i64 ns ->
  x = join [","%char] (map (fmt_number options_new) ns) ->
  parse_str nr_default x
  = Ok {| numbers := ns; original_repr := Some x; options := options_new |}.
Proof.
  intros Hne Hin Ex. unfold parse_str, parse. cbn [original_repr options nr_default from_options].
  assert (Hchars : Forall (fun c => num_char c \/ c = ":"%char \/ c = ","%char) x).
  { apply Forall_forall. intros c Hc. rewrite Ex in Hc.
    apply join_in in Hc as [[<- | []] | (p & Hp & Hc)];
      [tauto|]. apply in_map_iff in Hp as (n & <- & _).
    pose proof (fmt_number_chars n) as H. rewrite Forall_forall in H.
    destruct (H c Hc); tauto. }
  rewrite sanitize_default_clean.
  2: { eapply Forall_impl; [|exact Hchars]. intros c Hc.
       destruct Hc as [Hc | [-> | ->]].
       - apply num_char_props in Hc. unfold clean_char. tauto.
       - split; [reflexivity | discriminate].
       - split; [reflexivity | discriminate]. }
  assert (Hx : exists c t, x = c :: t).
  { destruct ns as [|n ns]; [congruence|]. destruct (fmt_number_cons n) as (c & t & E).
    rewrite Ex. cbn [map]. rewrite E. destruct ns; eexists; eexists; reflexivity. }
  destruct Hx as (c & t & Ect). rewrite Ect at 1.
  unfold parse_terms. cbn [list_sep options_new]. rewrite Ex at 1.
  rewrite split_join.
  - rewrite map_map, (map_ext_in _ Ok).
    + rewrite collect_map_ok. reflexivity.
    + intros n Hn. apply parse_term_fmt. rewrite Forall_forall in Hin. auto.
  - destruct ns; cbn; congruence.
  - apply Forall_forall. intros p Hp. apply in_map_iff in Hp as (n & <- & _).
    eapply Forall_impl; [|apply fmt_number_chars].
    intros c' [Hc' | ->]; [apply num_char_props in Hc'; tauto | discriminate].
Qed.

(** C4.  For [i64] values [s > e], the two-part term ["s:e"] parses
    under the default options into [Range(s, 1, e)] (implied step
    [+1]), and draining it yields no value at all. *)
Theorem parse_descending_unit_range s e :
  in_i64 s -> in_i64 e -> e < s ->
  match parse_str nr_default (show_i64 s ++ [":"%char] ++ show_i64 e) with
  | Ok r => numbers r = [Range s 1 e]
            /\ forall n, run add_i64 (S n) (numbers r) = (repeat None (S n), [])
  | Err _ => False
  end.
Proof.
  intros Hs He Hlt.
  rewrite (parse_str_fmt [Range s 1 e]);
    [| congruence
     | apply Forall_cons; [|apply Forall_nil]; cbn;
       unfold in_i64, i64_min, i64_max in *; lia
     | reflexivity].
  cbn [numbers]. split; [reflexivity|].
  intros n. rewrite run_skip_invalid, run_nil; [reflexivity|].
  cbn [is_valid]. destruct (Z.leb_spec s e); [lia|]. cbn. rewrite Bool.andb_false_r. reflexivity.
Qed.

(** C4 witness: ["4:1"]. *)
Lemma parse_descending_unit_range_witness :
  show_i64 4 ++ [":"%char] ++ show_i64 1 = lit "4:1"
  /\ match parse_str nr_default (show_i64 4 ++ [":"%char] ++ show_i64 1) with
     | Ok r => numbers r = [Range 4 1 1]
               /\ forall n, run add_i64 (S n) (numbers r) = (repeat None (S n), [])
     | Err _ => False
     end.
Proof.
  split; [reflexivity|].
  apply parse_descending_unit_range; unfold in_i64, i64_min, i64_max; lia.
Defined.

Lemma parse_number_in_i64 o num def v :
  parse_number o num def = Ok v -> def = Some v \/ in_i64 v.
Proof.
  unfold parse_number. destruct def as [d|], (sanitize_number o num) as [|c s];
    try (intros [= <-]; left; reflexivity);
    destruct (from_str_i64 _) eqn:E; intros H; inversion H; subst;
    right; eapply from_str_i64_range; eassumption.
Qed.

Lemma collect_in {A} (l : list (Result A)) vs :
  collect l = Ok vs -> forall v, In v vs -> In (Ok v) l.
Proof.
  revert vs. induction l as [|[a|e] l IH]; intros vs H v Hv; cbn in H.
  - injection H as <-. destruct Hv.
  - destruct (collect l) as [vs'|] eqn:E; [|discriminate]. injection H as <-.
    destruct Hv as [<- | Hv]; [left; reflexivity | right; apply (IH vs' eq_refl v Hv)].
  - discriminate.
Qed.

Section ParseRange.
Variable o : NumberRangeOptions.
Hypothesis Hds : forall d, default_start o = Some d -> in_i64 d.
Hypothesis Hde : forall d, default_end o = Some d -> in_i64 d.

Lemma parse_term_in_i64 t n : parse_term o t = Ok n -> term_in_i64 n.
Proof.
  assert (Hnum : forall num def v, (forall d, def = Some d -> in_i64 d) ->
                 parse_number o num def = Ok v -> in_i64 v).
  { intros num def v Hd H. apply parse_number_in_i64 in H as [H | H]; auto. }
  unfold parse_term.
  destruct (count_matches (range_sep o) t) as [|[|[|k]]].
  - destruct (parse_number o t None) eqn:E; intros H; inversion H; subst.
    eapply Hnum; [|exact E]. discriminate.
  - destruct (split_once (range_sep o) t) as [[a b]|]; [|discriminate].
    destruct (parse_number o a _) eqn:Ea; [|discriminate].
    destruct (parse_number o b _) eqn:Eb; [|discriminate].
    intros H; inversion H; subst. cbn.
    split; [eapply Hnum; [exact Hds | exact Ea]|].
    split; [unfold in_i64, i64_min, i64_max; lia | eapply Hnum; [exact Hde | exact Eb]].
  - match goal with |- context [collect ?l] => destruct (collect l) as [vs|] eqn:E end;
      [|discriminate].
    destruct vs as [|a [|b [|c [|? ?]]]]; try discriminate.
    intros H; inversion H; subst.
    assert (Hv : forall v, In v [a; b; c] -> in_i64 v).
    { intros v Hv. pose proof (collect_in _ _ E v Hv) as Hin.
      apply in_map_iff in Hin as ([i s] & Hi & Hin).
      destruct (nth_error [default_start o; Some 1; default_end o] i) as [d|] eqn:Ed;
        [|discriminate].
      apply (Hnum s d); [|exact Hi].
      apply nth_error_In in Ed. intros d' ->.
      destruct Ed as [Ed | [Ed | [Ed | []]]]; [apply Hds; auto | | apply Hde; auto].
      injection Ed as <-. unfold in_i64, i64_min, i64_max; lia. }
    cbn. split; [apply Hv; cbn; tauto | split; apply Hv; cbn; tauto].
  - discriminate.
Qed.

Lemma parse_terms_in_i64 x ns : parse_terms o x = Ok ns -> Forall term_in_i64 ns.
Proof.
  intros H. apply Forall_forall. intros n Hn.
  pose proof (collect_in _ _ H n Hn) as Hin.
  apply in_map_iff in Hin as (t & Ht & _). exact (parse_term_in_i64 t n Ht).
Qed.
End ParseRange.

Lemma parse_str_result r0 x r :
  parse_str r0 x = Ok r ->
  options r = options r0 /\ original_repr r = Some x
  /\ (numbers r = [] \/ parse_terms (options r0) x = Ok (numbers r)).
Proof.
  unfold parse_str, parse. cbn [original_repr options].
  destruct (sanitize_number (options r0) x).
  - intros [= <-]. cbn. auto.
  - destruct (parse_terms _ _) eqn:E; [|discriminate]. intros [= <-]. cbn. auto.
Qed.

(** C7.  Round trip under the default options: when [x] parses, the
    text [fmt] prints for the result parses again, to the same terms,
    hence to the same element sequence. *)
Theorem fmt_parse_roundtrip x r :
  parse_str nr_default x = Ok r ->
  exists r', parse_str nr_default (fmt r) = Ok r'
             /\ numbers r' = numbers r
             /\ forall n, fst (run add_i64 n (numbers r')) = fst (run add_i64 n (numbers r)).
Proof.
  intros H. destruct (parse_str_result _ _ _ H) as (Ho & _ & Hn).
  cbn [options nr_default from_options] in Hn.
  assert (Hi : Forall term_in_i64 (numbers r)).
  { destruct Hn as [-> | Hn]; [constructor|].
    apply (parse_terms_in_i64 options_new) in Hn; auto; discriminate. }
  unfold fmt. rewrite Ho. cbn [options nr_default from_options].
  destruct (numbers r) as [|n ns] eqn:En.
  - eexists. split; [reflexivity|]. split; reflexivity.
  - eexists. split.
    + apply (parse_str_fmt (n :: ns)); [congruence | exact Hi | reflexivity].
    + cbn [numbers]. split; reflexivity.
Qed.

(** C7 witness: ["1: 3,10:-4:4, 7"]. *)
Lemma fmt_parse_roundtrip_witness :
  exists r, parse_str nr_default (lit "1: 3,10:-4:4, 7") = Ok r
            /\ fmt r = lit "1:3,10:-4:4,7"
            /\ exists r', parse_str nr_default (fmt r) = Ok r'
                          /\ numbers r' = numbers r
                          /\ forall n, fst (run add_i64 n (numbers r'))
                                       = fst (run add_i64 n (numbers r)).
Proof.
  eexists. split; [vm_compute; reflexivity|]. split; [vm_compute; reflexivity|].
  apply (fmt_parse_roundtrip (lit "1: 3,10:-4:4, 7")). vm_compute. reflexivity.
Defined.

(** ** Parse errors *)

Lemma collect_app_err {A} (l1 : list (Result A)) a e l2 :
  collect l1 = Ok a -> collect (l1 ++ Err e :: l2) = Err e.
Proof.
  revert a. induction l1 as [|[x|e'] l1 IH]; intros a H; cbn in *; [reflexivity| |discriminate].
  destruct (collect l1) as [a'|] eqn:E; [|discriminate]. rewrite (IH a' eq_refl). reflexivity.
Qed.

Lemma collect_err_in {A} (l : list (Result A)) e : collect l = Err e -> In (Err e) l.
Proof.
  induction l as [|[x|e'] l IH]; cbn; intros H; [discriminate| |].
  - destruct (collect l); [discriminate|]. injection H as <-. right. apply IH. reflexivity.
  - injection H as <-. left. reflexivity.
Qed.

(** The first failing list item decides the outcome of [parse]. *)
Lemma parse_first_error o x pre t post ps e :
  sanitize_number o x <> [] ->
  split (list_sep o) x = pre ++ t :: post ->
  collect (map (parse_term o) pre) = Ok ps ->
  parse_term o t = Err e ->
  options_parse o x = Err e.
Proof.
  intros Hs Hsplit Hpre Ht. unfold options_parse, parse_str, parse.
  cbn [original_repr options from_options].
  destruct (sanitize_number o x) eqn:E; [congruence|].
  unfold parse_terms. rewrite Hsplit, map_app. cbn [map]. rewrite Ht.
  rewrite (collect_app_err _ ps) by exact Hpre. reflexivity.
Qed.

Lemma parse_number_err o num def e :
  parse_number o num def = Err e ->
  e = NotANumber num /\ from_str_i64 (sanitize_number o num) = None.
Proof.
  unfold parse_number.
  destruct def, (sanitize_number o num); try discriminate;
    destruct (from_str_i64 _) eqn:E; intros H; inversion H; auto.
Qed.

Lemma count_matches_zero c s : count_matches c s = 0%nat -> Forall (fun x => x <> c) s.
Proof.
  induction s as [|x s IH]; intros H; [constructor|].
  unfold count_matches in *. cbn in H.
  destruct (ascii_eqb x c) eqn:E; [discriminate|]. constructor; [|apply IH, H].
  intros ->. rewrite ascii_eqb_refl' in E. discriminate.
Qed.

Lemma split_once_some c s a b :
  split_once c s = Some (a, b) ->
  s = a ++ c :: b /\ count_matches c s = S (count_matches c b).
Proof.
  revert a. induction s as [|x s IH]; intros a H; cbn in H; [discriminate|].
  unfold count_matches in *. cbn.
  destruct (ascii_eqb x c) eqn:E.
  - injection H as <- <-. unfold ascii_eqb in E. apply Ascii.eqb_eq in E. subst.
    split; reflexivity.
  - destruct (split_once c s) as [[a' b']|] eqn:Es; [|discriminate].
    injection H as <- <-. destruct (IH a' eq_refl) as [-> Hc]. split; [reflexivity|]. exact Hc.
Qed.

Lemma split_once_none c s : split_once c s = None -> count_matches c s = 0%nat.
Proof.
  induction s as [|x s IH]; cbn; intros H; [reflexivity|].
  unfold count_matches in *. cbn.
  destruct (ascii_eqb x c); [discriminate|].
  destruct (split_once c s) as [[]|]; [discriminate|]. apply IH. reflexivity.
Qed.

Lemma splitn_split c n : forall s, (count_matches c s < n)%nat -> splitn n c s = split c s.
Proof.
  induction n as [|n IH]; intros s H; [lia|].
  destruct n as [|n].
  - cbn. rewrite split_nocc; [reflexivity|]. apply count_matches_zero. lia.
  - change (splitn (S (S n)) c s)
      with (match split_once c s with
            | Some (a, b) => a :: splitn (S n) c b
            | None => [s] end).
    destruct (split_once c s) as [[a b]|] eqn:E.
    + destruct (split_once_some c s a b E) as [-> Hc].
      rewrite IH by lia. rewrite split_app; [reflexivity|].
      clear IH H Hc. revert E. induction a as [|x a IHa]; intros E; [constructor|].
      cbn in E. destruct (ascii_eqb x c) eqn:Ex; [discriminate|].
      constructor; [intros ->; rewrite ascii_eqb_refl' in Ex; discriminate|].
      apply IHa. destruct (split_once c (a ++ c :: b)) as [[]|]; [|discriminate].
      injection E as -> ->. reflexivity.
    + rewrite split_nocc; [reflexivity|]. apply count_matches_zero, split_once_none, E.
Qed.

(** A malformed-number error of a list item names one of its parts as
    written. *)
Lemma parse_term_err_names o t num :
  parse_term o t = Err (NotANumber num) ->
  In num (split (range_sep o) t) /\ from_str_i64 (sanitize_number o num) = None.
Proof.
  unfold parse_term. destruct (count_matches (range_sep o) t) as [|[|[|k]]] eqn:Ec.
  - destruct (parse_number o t None) eqn:E; [discriminate|]. intros [= ->].
    apply parse_number_err in E as [[= ->] Hn]. split; [|exact Hn].
    rewrite split_nocc by (apply count_matches_zero, Ec). left. reflexivity.
  - destruct (split_once (range_sep o) t) as [[a b]|] eqn:Es; [|discriminate].
    destruct (split_once_some _ _ _ _ Es) as [Et Hc].
    assert (Hsplit : split (range_sep o) t = [a; b]).
    { rewrite Et, split_app, split_nocc; [reflexivity| |].
      - apply count_matches_zero. lia.
      - apply count_matches_zero. rewrite Et, count_matches_app in Ec. cbn in Ec.
        unfold count_matches in Ec |- *. cbn in Ec. rewrite ascii_eqb_refl' in Ec. cbn in Ec.
        lia. }
    rewrite Hsplit.
    destruct (parse_number o a _) eqn:Ea.
    + destruct (parse_number o b _) eqn:Eb; [discriminate|]. intros [= ->].
      apply parse_number_err in Eb as [[= ->] Hn]. split; [cbn; tauto | exact Hn].
    + intros [= ->]. apply parse_number_err in Ea as [[= ->] Hn]. split; [cbn; tauto | exact Hn].
  - match goal with |- context [collect ?l] => destruct (collect l) as [vs|] eqn:E end.
    + destruct vs as [|a [|b [|c [|? ?]]]]; discriminate.
    + intros [= ->]. apply collect_err_in, in_map_iff in E as ([i s] & Hi & Hin).
      destruct (nth_error _ i); [|discriminate].
      apply parse_number_err in Hi as [[= ->] Hn]. split; [|exact Hn].
      apply in_combine_r in Hin. rewrite splitn_split in Hin by lia. exact Hin.
  - discriminate.
Qed.

(** C6 counterexamples.  ["_"] holds one number substring, which
    sanitizes to [""], not a valid literal; yet [parse] succeeds with no
    terms, since the whole input sanitizes to [""].  And in
    ["1:2:3:4,x"] the malformed ["x"] is never named: the first item
    fails with too many range separators. *)
Lemma parse_error_cex :
  split (list_sep options_new) (lit "_") = [lit "_"]
  /\ count_matches (range_sep options_new) (lit "_") = 0%nat
  /\ from_str_i64 (sanitize_number options_new (lit "_")) = None
  /\ (exists r, options_parse options_new (lit "_") = Ok r /\ numbers r = [])
  /\ from_str_i64 (sanitize_number options_new (lit "x")) = None
  /\ options_parse options_new (lit "1:2:3:4,x")
     = Err (TooManyRangeSeparators ":" (lit "1:2:3:4")).
Proof.
  split; [reflexivity|]. split; [reflexivity|]. split; [reflexivity|].
  split; [eexists; split; vm_compute; reflexivity|].
  split; vm_compute; reflexivity.
Qed.

(** An input that sanitizes as a whole to [""] parses, under any
    options, to a [NumberRange] with no terms, whatever its list items. *)
Lemma parse_sanitized_nil o x :
  sanitize_number o x = [] ->
  options_parse o x = Ok {| numbers := []; original_repr := Some x; options := o |}.
Proof.
  intros H. unfold options_parse, parse_str, parse. cbn [original_repr options from_options].
  rewrite H. reflexivity.
Qed.

(** C6 (amended).  For an input that does not sanitize to [""], parse
    is all-or-nothing: the first list item that fails decides, its
    error [e] is returned and no [NumberRange] (so a malformed number
    in a later item is not reported); a malformed-number error names
    the item's part as written (one of its [range_sep]-separated
    substrings), whose sanitized form is not an [i64] literal.  An
    input that sanitizes as a whole to [""] parses to a [NumberRange]
    with no terms. *)
Theorem parse_error_all_or_nothing :
  (forall o x pre t post ps e,
     sanitize_number o x <> [] ->
     split (list_sep o) x = pre ++ t :: post ->
     collect (map (parse_term o) pre) = Ok ps ->
     parse_term o t = Err e ->
     options_parse o x = Err e
     /\ forall num, e = NotANumber num ->
          In num (split (range_sep o) t)
          /\ from_str_i64 (sanitize_number o num) = None)
  /\ (forall o x, sanitize_number o x = [] ->
        options_parse o x = Ok {| numbers := []; original_repr := Some x; options := o |}).
Proof.
  split; [|exact parse_sanitized_nil].
  intros o x pre t post ps e Hs Hsplit Hpre Ht.
  split; [eapply parse_first_error; eassumption|].
  intros num ->. apply parse_term_err_names, Ht.
Qed.

(** C6 witness: ["1, x ,3"] fails naming [" x "]; ["_"] parses to no
    terms. *)
Lemma parse_error_all_or_nothing_witness :
  (options_parse options_new (lit "1, x ,3") = Err (NotANumber (lit " x "))
   /\ forall num, NotANumber (lit " x ") = NotANumber num ->
        In num (split (range_sep options_new) (lit " x "))
        /\ from_str_i64 (sanitize_number options_new num) = None)
  /\ options_parse options_new (lit "_")
     = Ok {| numbers := []; original_repr := Some (lit "_"); options := options_new |}.
Proof.
  split.
  - apply (proj1 parse_error_all_or_nothing options_new (lit "1, x ,3") [lit "1"]
             (lit " x ") [lit "3"] [Single 1]); vm_compute; [discriminate | reflexivity..].
  - apply (proj2 parse_error_all_or_nothing). vm_compute. reflexivity.
Defined.

(** An item that is the empty string. *)
Lemma parse_term_empty o : parse_term o [] = Err (NotANumber []).
Proof.
  unfold parse_term, count_matches. cbn [filter List.length].
  unfold parse_number, sanitize_number, trim. cbn.
  destruct (whitespace o); reflexivity.
Qed.

(** Options with [list_sep = ' '] and both defaults. *)
Definition space_list_options : NumberRangeOptions := {|
  list_sep := " "; range_sep := ":"; decimal_sep := "."; group_sep := "_";
  whitespace := false; default_start := Some 1; default_end := Some 5
|}.

(** C10 counterexamples.  [" "] is non-empty and, with [list_sep = ' ']
    (both defaults set), splits into two empty items, yet parses to an
    empty [NumberRange]; with the default options, ["1:2:3:4,,"] has
    empty items but fails with too many range separators. *)
Lemma empty_item_cex :
  split (list_sep space_list_options) (lit " ") = [[]; []]
  /\ (exists r, options_parse space_list_options (lit " ") = Ok r /\ numbers r = [])
  /\ split (list_sep options_new) (lit "1:2:3:4,,") = [lit "1:2:3:4"; []; []]
  /\ options_parse options_new (lit "1:2:3:4,,")
     = Err (TooManyRangeSeparators ":" (lit "1:2:3:4")).
Proof.
  split; [reflexivity|]. split; [eexists; split; vm_compute; reflexivity|].
  split; vm_compute; reflexivity.
Qed.

(** C10 (amended).  Under any options, defaults included: if the input
    does not sanitize to [""] and every item before an empty item
    parses, [parse] fails with the malformed-number error of the empty
    item.  An item without a range separator (a [Single]) is parsed
    with no default.  An input that sanitizes as a whole to [""] parses
    to a [NumberRange] with no terms, however many empty items it
    splits into.  An earlier failing item's error is returned first. *)
Theorem empty_item_error :
  (forall o x pre post ps,
     sanitize_number o x <> [] ->
     split (list_sep o) x = pre ++ [] :: post ->
     collect (map (parse_term o) pre) = Ok ps ->
     options_parse o x = Err (NotANumber []))
  /\ (forall o t, count_matches (range_sep o) t = 0%nat ->
        parse_term o t = match parse_number o t None with
                         | Ok v => Ok (Single v)
                         | Err e => Err e
                         end)
  /\ (forall o x, sanitize_number o x = [] ->
        options_parse o x = Ok {| numbers := []; original_repr := Some x; options := o |})
  /\ (forall o x pre t post ps e,
        sanitize_number o x <> [] ->
        split (list_sep o) x = pre ++ t :: post ->
        collect (map (parse_term o) pre) = Ok ps ->
        parse_term o t = Err e ->
        options_parse o x = Err e).
Proof.
  split; [|split; [|split]].
  - intros o x pre post ps Hs Hsplit Hpre. eapply parse_first_error; try eassumption.
    apply parse_term_empty.
  - intros o t Hc. unfold parse_term. rewrite Hc. reflexivity.
  - exact parse_sanitized_nil.
  - exact parse_first_error.
Qed.

(** C10 witness: ["1,,4"] and ["1,4,"] with both defaults set; [" "]
    with [list_sep = ' '] and both defaults; ["1:2:3:4,,"]. *)
Lemma empty_item_error_witness :
  options_parse {| list_sep := ","; range_sep := ":"; decimal_sep := ".";
                   group_sep := "_"; whitespace := false;
                   default_start := Some 1; default_end := Some 5 |} (lit "1,,4")
  = Err (NotANumber [])
  /\ options_parse {| list_sep := ","; range_sep := ":"; decimal_sep := ".";
                      group_sep := "_"; whitespace := true;
                      default_start := Some 0; default_end := Some 9 |} (lit "1,4,")
     = Err (NotANumber [])
  /\ parse_term space_list_options [] = Err (NotANumber [])
  /\ options_parse space_list_options (lit " ")
     = Ok {| numbers := []; original_repr := Some (lit " "); options := space_list_options |}
  /\ options_parse options_new (lit "1:2:3:4,,")
     = Err (TooManyRangeSeparators ":" (lit "1:2:3:4")).
Proof.
  destruct empty_item_error as (H1 & H2 & H3 & H4).
  split; [|split; [|split; [|split]]].
  - apply (H1 _ (lit "1,,4") [lit "1"] [lit "4"] [Single 1]);
      vm_compute; [discriminate | reflexivity..].
  - apply (H1 _ (lit "1,4,") [lit "1"; lit "4"] [] [Single 1; Single 4]);
      vm_compute; [discriminate | reflexivity..].
  - rewrite (H2 space_list_options []) by reflexivity. reflexivity.
  - apply H3. reflexivity.
  - apply (H4 _ (lit "1:2:3:4,,") [] (lit "1:2:3:4") [[]; []] []);
      vm_compute; [discriminate | reflexivity..].
Defined.

(** ** Further properties of the code *)

(** The value [next] returns for a term it does not skip. *)
Definition front_value (t : Number) : Z :=
  match t with Single v => v | Range s _ _ => s end.

(** What [next] leaves of that term. *)
Definition advance (add : Z -> Z -> Z) (t : Number) : list Number :=
  match t with
  | Single _ => []
  | Range s i e =>
      if is_valid (Range (add s i) i e) then [Range (add s i) i e] else []
  end.

(** A successful parse is a fixed point of [parse]: re-parsing the
    result yields it again. *)
Theorem parse_str_reparse r x r' : parse_str r x = Ok r' -> parse r' = Ok r'.
Proof.
  intros H. destruct (parse_str_result _ _ _ H) as (Ho & Hx & _).
  unfold parse_str, parse in H. cbn [original_repr options] in H.
  unfold parse. rewrite Hx, Ho.
  destruct (sanitize_number (options r) x) eqn:Es.
  - injection H as <-. reflexivity.
  - destruct (parse_terms (options r) x); [|discriminate]. injection H as <-.
    reflexivity.
Qed.

Lemma parse_str_reparse_witness :
  parse_str nr_default (lit "1,3:2:9") = Ok {| numbers := [Single 1; Range 3 2 9];
     original_repr := Some (lit "1,3:2:9"); options := options_new |}
  /\ parse {| numbers := [Single 1; Range 3 2 9];
              original_repr := Some (lit "1,3:2:9"); options := options_new |}
     = Ok {| numbers := [Single 1; Range 3 2 9];
             original_repr := Some (lit "1,3:2:9"); options := options_new |}.
Proof.
  assert (H : parse_str nr_default (lit "1,3:2:9") = Ok {| numbers := [Single 1; Range 3 2 9];
     original_repr := Some (lit "1,3:2:9"); options := options_new |})
    by (vm_compute; reflexivity).
  split; [exact H | exact (parse_str_reparse _ _ _ H)].
Defined.

(** One pull: [next] skips the leading invalid ranges; at the first
    valid term it returns that term's value and leaves the advanced
    term (if still valid) in front of the untouched rest; when every
    term is an invalid range it returns [None] and empties the deque. *)
Theorem next_shape add ns :
  (exists inv t rest,
      ns = inv ++ t :: rest /\ Forall (fun u => is_valid u = false) inv
      /\ is_valid t = true
      /\ next add ns = (Some (front_value t), advance add t ++ rest))
  \/ (Forall (fun u => is_valid u = false) ns /\ next add ns = (None, [])).
Proof.
  induction ns as [|t ns IH]; [right; split; [constructor | reflexivity]|].
  destruct (is_valid t) eqn:Ht.
  - left. exists [], t, ns. split; [reflexivity|]. split; [constructor|]. split; [exact Ht|].
    destruct t as [v | s i e]; cbn [next advance front_value app]; [reflexivity|].
    rewrite Ht. destruct (is_valid (Range (add s i) i e)); reflexivity.
  - destruct t as [v | s i e]; [discriminate|].
    rewrite next_skip_invalid by exact Ht.
    destruct IH as [(inv & t' & rest & -> & Hinv & Ht' & E) | [Hall E]].
    + left. exists (Range s i e :: inv), t', rest.
      repeat split; auto.
    + right. split; auto.
Qed.

(** Validity of every term is kept by iteration: [next] only ever puts
    back a range it has checked to be valid. *)
Theorem run_keeps_valid add n ns :
  Forall (fun u => is_valid u = true) ns ->
  Forall (fun u => is_valid u = true) (snd (run add n ns)).
Proof.
  revert ns. induction n as [|n IH]; intros ns H; [exact H|].
  cbn [run]. destruct (next add ns) as [v ns1] eqn:E.
  assert (H1 : Forall (fun u => is_valid u = true) ns1).
  { destruct H as [|t rest Ht Hrest]; cbn [next] in E;
      [injection E as _ <-; constructor|].
    destruct t as [w | s i e]; [injection E as _ <-; exact Hrest|].
    rewrite Ht in E. destruct (is_valid (Range (add s i) i e)) eqn:Hn;
      injection E as _ <-; auto. }
  specialize (IH ns1 H1). destruct (run add n ns1). exact IH.
Qed.

Lemma run_keeps_valid_witness :
  Forall (fun u => is_valid u = true) (snd (run add_i64 2 [Range 1 4 10; Single 3])).
Proof. apply run_keeps_valid. repeat constructor. Defined.

Lemma in_replace c d r s : In c (replace d r s) -> In c r \/ (In c s /\ c <> d).
Proof.
  unfold replace. intros H. apply in_flat_map in H as (x & Hx & Hc).
  destruct (ascii_eqb x d) eqn:E; [left; exact Hc|].
  destruct Hc as [<- | []]. right. split; [exact Hx|].
  intros ->. rewrite ascii_eqb_refl' in E. discriminate.
Qed.

Lemma in_trim_start c s : In c (trim_start s) -> In c s.
Proof.
  induction s as [|x s IH]; cbn; [tauto|].
  destruct (is_whitespace x); [intros H; right; apply IH, H | tauto].
Qed.

Lemma in_trim c s : In c (trim s) -> In c s.
Proof.
  unfold trim. intros H. apply in_rev in H. apply in_trim_start in H.
  apply in_rev in H. apply in_trim_start in H. exact H.
Qed.

Lemma trim_start_blank s : Forall (fun c => is_whitespace c = true) s -> trim_start s = [].
Proof. induction 1 as [|x s Hx _ IH]; cbn; [reflexivity|]. rewrite Hx. exact IH. Qed.

Lemma trim_blank s : Forall (fun c => is_whitespace c = true) s -> trim s = [].
Proof. intros H. unfold trim. rewrite (trim_start_blank s) by exact H. reflexivity. Qed.

Lemma sanitize_nil o : sanitize_number o [] = [].
Proof. unfold sanitize_number. cbn. destruct (whitespace o); reflexivity. Qed.

(** What sanitizing leaves: no whitespace at all when [whitespace] is
    set, no group separator and no decimal separator (each unless it
    is ['.'], the character the decimal separator becomes). *)
Theorem sanitize_number_clean o num :
  (whitespace o = true ->
     Forall (fun c => is_whitespace c = false) (sanitize_number o num))
  /\ (group_sep o <> "."%char -> ~ In (group_sep o) (sanitize_number o num))
  /\ (decimal_sep o <> "."%char -> ~ In (decimal_sep o) (sanitize_number o num)).
Proof.
  unfold sanitize_number.
  set (t := replace (group_sep o) [] (trim num)).
  set (u := if whitespace o then join_split_whitespace t else t).
  assert (Hu : forall c, In c u -> In c t /\ (whitespace o = true -> is_whitespace c = false)).
  { intros c Hc. unfold u in Hc. destruct (whitespace o).
    - unfold join_split_whitespace in Hc. apply filter_In in Hc as [Hc Hw].
      split; [exact Hc|]. intros _. destruct (is_whitespace c); [discriminate | reflexivity].
    - split; [exact Hc | discriminate]. }
  assert (Ht : forall c, In c t -> c <> group_sep o).
  { intros c Hc. apply in_replace in Hc as [[] | [_ Hc]]. exact Hc. }
  split; [|split].
  - intros Hw. apply Forall_forall. intros c Hc.
    apply in_replace in Hc as [[<- | []] | [Hc _]]; [reflexivity|].
    apply (Hu c Hc), Hw.
  - intros Hg Hc. apply in_replace in Hc as [[E | []] | [Hc _]]; [congruence|].
    apply (Ht _ (proj1 (Hu _ Hc))). reflexivity.
  - intros Hd Hc. apply in_replace in Hc as [[E | []] | [_ Hc]]; [congruence|].
    apply Hc. reflexivity.
Qed.

(** A blank part (only whitespace, or with [whitespace] set only
    whitespace and group separators) takes the default when there is
    one, and otherwise fails with the malformed-number error naming the
    part as written. *)
Theorem parse_number_blank o num def :
  Forall (fun c => is_whitespace c = true) num
  \/ (whitespace o = true
      /\ Forall (fun c => is_whitespace c = true \/ c = group_sep o) num) ->
  parse_number o num def
  = match def with Some d => Ok d | None => Err (NotANumber num) end.
Proof.
  intros Hb.
  assert (Hs : sanitize_number o num = []).
  { destruct Hb as [Hb | [Hw Hb]].
    - unfold sanitize_number. rewrite trim_blank by exact Hb. apply sanitize_nil.
    - unfold sanitize_number. rewrite Hw.
      assert (He : join_split_whitespace (replace (group_sep o) [] (trim num)) = []).
      { unfold join_split_whitespace.
        destruct (filter _ _) as [|c l] eqn:E; [reflexivity|].
        assert (Hc : In c (filter (fun x => negb (is_whitespace x))
                                   (replace (group_sep o) [] (trim num))))
          by (rewrite E; left; reflexivity).
        apply filter_In in Hc as [Hc Hw'].
        apply in_replace in Hc as [[] | [Hc Hg]]. apply in_trim in Hc.
        rewrite Forall_forall in Hb. destruct (Hb c Hc) as [Hw2 | Hg2];
          [rewrite Hw2 in Hw'; discriminate | contradiction]. }
      rewrite He. reflexivity. }
  unfold parse_number. rewrite Hs. destruct def; reflexivity.
Qed.

Lemma parse_number_blank_witness :
  parse_number (with_default_start options_new 0) (lit "  ") (Some 0) = Ok 0
  /\ parse_number (with_whitespace options_new true) (lit " _ ") None
     = Err (NotANumber (lit " _ ")).
Proof.
  split.
  - apply (parse_number_blank (with_default_start options_new 0) (lit "  ") (Some 0)).
    left. repeat constructor.
  - apply (parse_number_blank (with_whitespace options_new true) (lit " _ ") None).
    right. split; [reflexivity|].
    repeat apply Forall_cons; try apply Forall_nil;
      first [left; reflexivity | right; reflexivity].
Defined.

(** Input made only of whitespace (the empty string included) parses,
    under any options, to a [NumberRange] with no terms. *)
Theorem parse_blank_input o x :
  Forall (fun c => is_whitespace c = true) x ->
  exists r, options_parse o x = Ok r /\ numbers r = [] /\ original r = x.
Proof.
  intros Hb. unfold options_parse, parse_str, parse. cbn [original_repr options from_options].
  unfold sanitize_number. rewrite trim_blank by exact Hb.
  change (replace (group_sep o) [] []) with (@nil ascii).
  destruct (whitespace o); cbn; eexists; split; (reflexivity || split; reflexivity).
Qed.

Lemma parse_blank_input_witness :
  exists r, options_parse (with_list_sep options_new " ") (lit " 	 ") = Ok r
            /\ numbers r = [] /\ original r = lit " 	 ".
Proof. apply parse_blank_input. repeat constructor. Defined.


Lemma count_matches_one c a b :
  Forall (fun x => x <> c) a -> Forall (fun x => x <> c) b ->
  count_matches c (a ++ c :: b) = 1%nat.
Proof.
  intros Ha Hb. change (c :: b) with ([c] ++ b).
  rewrite !count_matches_app, count_matches_sep, !count_matches_nocc by assumption.
  reflexivity.
Qed.

Lemma count_matches_two c a b d :
  Forall (fun x => x <> c) a -> Forall (fun x => x <> c) b -> Forall (fun x => x <> c) d ->
  count_matches c (a ++ c :: b ++ c :: d) = 2%nat.
Proof.
  intros Ha Hb Hd. change (c :: b ++ c :: d) with ([c] ++ b ++ [c] ++ d).
  rewrite !count_matches_app, !count_matches_sep, !count_matches_nocc by assumption.
  reflexivity.
Qed.

Lemma filter_all {A} (f : A -> bool) l : Forall (fun x => f x = true) l -> filter f l = l.
Proof. induction 1 as [|x l Hx _ IH]; cbn; [reflexivity|]. rewrite Hx, IH. reflexivity. Qed.

Lemma show_i64_nocc z c : ~ num_char c -> Forall (fun x => x <> c) (show_i64 z).
Proof. intros Hc. apply show_i64_not. intros x Hx ->. exact (Hc Hx). Qed.

Section PlainOptions.
(** Options whose group and decimal separators are neither a digit nor
    ['-'], so that they leave a printed [i64] alone. *)
Variable o : NumberRangeOptions.
Hypothesis Hg : ~ num_char (group_sep o).
Hypothesis Hd : ~ num_char (decimal_sep o).

Lemma sanitize_show z : sanitize_number o (show_i64 z) = show_i64 z.
Proof.
  unfold sanitize_number.
  assert (Hw : Forall (fun c => is_whitespace c = false) (show_i64 z))
    by (apply show_i64_not; intros c Hc; apply num_char_props in Hc; tauto).
  rewrite trim_nows by exact Hw.
  rewrite (replace_nocc (group_sep o) [] (show_i64 z)) by (apply show_i64_nocc, Hg).
  destruct (whitespace o).
  - unfold join_split_whitespace. rewrite filter_all.
    + apply replace_nocc, show_i64_nocc, Hd.
    + eapply Forall_impl; [|exact Hw]. intros c Hc. cbn beta. rewrite Hc. reflexivity.
  - apply replace_nocc, show_i64_nocc, Hd.
Qed.

Lemma parse_number_show_plain z def :
  in_i64 z -> parse_number o (show_i64 z) def = Ok z.
Proof.
  intros Hz. unfold parse_number. rewrite sanitize_show.
  assert (Hf : from_str_i64 (show_i64 z) = Some z) by (apply from_str_show_i64, Hz).
  destruct (show_i64_cons z) as (c & s & E).
  rewrite E in *. destruct def; rewrite Hf; reflexivity.
Qed.

Lemma parse_number_nil def :
  parse_number o [] def = match def with Some d => Ok d | None => Err (NotANumber []) end.
Proof. unfold parse_number. rewrite sanitize_nil. destruct def; reflexivity. Qed.
End PlainOptions.

(** Defaults (lib.rs 455-465): in a two-part item an empty start takes
    [default_start] and an empty end [default_end]; without the
    default the item fails with the malformed-number error of the empty
    part.  A bare separator needs both defaults. *)
Theorem parse_term_defaults o s e :
  ~ num_char (group_sep o) -> ~ num_char (decimal_sep o) -> ~ num_char (range_sep o) ->
  in_i64 s -> in_i64 e ->
  parse_term o (range_sep o :: show_i64 e)
  = match default_start o with Some d => Ok (Range d 1 e) | None => Err (NotANumber []) end
  /\ parse_term o (show_i64 s ++ [range_sep o])
  = match default_end o with Some d => Ok (Range s 1 d) | None => Err (NotANumber []) end
  /\ parse_term o [range_sep o]
  = match default_start o, default_end o with
    | Some a, Some b => Ok (Range a 1 b)
    | _, _ => Err (NotANumber [])
    end.
Proof.
  intros Hg Hd Hr Hs He. unfold parse_term.
  pose proof (show_i64_nocc s _ Hr) as Ns. pose proof (show_i64_nocc e _ Hr) as Ne.
  split; [|split].
  - pose proof (count_matches_one (range_sep o) [] (show_i64 e) (Forall_nil _) Ne) as C.
    cbn [app] in C. rewrite C.
    cbn [split_once]. rewrite ascii_eqb_refl'.
    rewrite parse_number_nil, parse_number_show_plain by assumption.
    destruct (default_start o); reflexivity.
  - rewrite (count_matches_one _ (show_i64 s) []) by (constructor || exact Ns).
    rewrite split_once_app by exact Ns.
    rewrite parse_number_nil, parse_number_show_plain by assumption.
    destruct (default_end o); reflexivity.
  - rewrite count_matches_sep. cbn [split_once]. rewrite ascii_eqb_refl'.
    rewrite !parse_number_nil.
    destruct (default_start o), (default_end o); reflexivity.
Qed.

Lemma not_num_char_dash_free c : c <> "-"%char -> (nat_of_ascii c < 48 \/ 57 < nat_of_ascii c)%nat ->
  ~ num_char c.
Proof.
  intros H1 H2 [H | (d & Hd & H)]; [contradiction|].
  subst c. rewrite digit_char_nat in H2 by exact Hd. lia.
Qed.

Lemma parse_term_defaults_witness :
  parse_term (with_default_start (with_range_sep options_new ":") 0)
             (":"%char :: show_i64 2) = Ok (Range 0 1 2)
  /\ parse_term (with_default_start (with_range_sep options_new ":") 0)
                (show_i64 2 ++ [":"%char]) = Err (NotANumber [])
  /\ parse_term (with_default_start (with_range_sep options_new ":") 0) [":"%char]
     = Err (NotANumber []).
Proof.
  apply (parse_term_defaults (with_default_start (with_range_sep options_new ":") 0));
    first [unfold in_i64, i64_min, i64_max; lia
          | apply not_num_char_dash_free; [discriminate | cbn; lia]].
Defined.

(** Three-part items (lib.rs 466-482): start, step and end are read in
    order; an empty step is the unit step [1]. *)
Theorem parse_term_three o s i e :
  ~ num_char (group_sep o) -> ~ num_char (decimal_sep o) -> ~ num_char (range_sep o) ->
  in_i64 s -> in_i64 i -> in_i64 e ->
  parse_term o (show_i64 s ++ range_sep o :: show_i64 i ++ range_sep o :: show_i64 e)
  = Ok (Range s i e)
  /\ parse_term o (show_i64 s ++ range_sep o :: range_sep o :: show_i64 e)
  = Ok (Range s 1 e).
Proof.
  intros Hg Hd Hr Hs Hi He. unfold parse_term.
  pose proof (show_i64_nocc s _ Hr) as Ns. pose proof (show_i64_nocc i _ Hr) as Ni.
  pose proof (show_i64_nocc e _ Hr) as Ne.
  split.
  - rewrite count_matches_two by assumption.
    cbn [splitn]. rewrite split_once_app by exact Ns.
    rewrite split_once_app by exact Ni.
    cbn [List.length seq combine map nth_error].
    rewrite !parse_number_show_plain by assumption. reflexivity.
  - pose proof (count_matches_two (range_sep o) (show_i64 s) [] (show_i64 e) Ns
                  (Forall_nil _) Ne) as C.
    cbn [app] in C. rewrite C.
    cbn [splitn]. rewrite split_once_app by exact Ns.
    cbn [split_once]. rewrite ascii_eqb_refl'.
    cbn [List.length seq combine map nth_error].
    rewrite parse_number_nil, !parse_number_show_plain by assumption. reflexivity.
Qed.

Lemma parse_term_three_witness :
  parse_term (with_range_sep options_new "/") (show_i64 9 ++ "/"%char :: show_i64 2 ++ "/"%char :: show_i64 15)
  = Ok (Range 9 2 15)
  /\ parse_term (with_range_sep options_new "/") (show_i64 9 ++ "/"%char :: "/"%char :: show_i64 15)
  = Ok (Range 9 1 15).
Proof.
  apply (parse_term_three (with_range_sep options_new "/") 9 2 15);
    first [unfold in_i64, i64_min, i64_max; lia
          | apply not_num_char_dash_free; [discriminate | cbn; lia]].
Defined.

Ltac destruct_match_in H :=
  repeat match type of H with
  | context [match ?x with _ => _ end] => let E := fresh "E" in destruct x eqn:E
  end.

(** Item shape (lib.rs 453-490): the number of range separators in an
    accepted item fixes its form: none gives a [Single], one a unit-step
    [Range], two a [Range] with any step; an item with more is never
    accepted. *)
Theorem parse_term_shape o t n :
  parse_term o t = Ok n ->
  match count_matches (range_sep o) t with
  | 0%nat => exists v, n = Single v
  | 1%nat => exists a b, n = Range a 1 b
  | 2%nat => exists a i b, n = Range a i b
  | _ => False
  end.
Proof.
  intros H. unfold parse_term in H.
  destruct (count_matches (range_sep o) t) as [|[|[|k]]]; destruct_match_in H;
    try discriminate; injection H as <-; eauto.
Qed.

Lemma parse_term_shape_witness :
  parse_term options_new (lit "3:9") = Ok (Range 3 1 9)
  /\ exists a b, Range 3 1 9 = Range a 1 b.
Proof.
  assert (H : parse_term options_new (lit "3:9") = Ok (Range 3 1 9)) by reflexivity.
  split; [exact H|]. exact (parse_term_shape options_new (lit "3:9") _ H).
Defined.

(** Too many range separators (lib.rs 484-486): an item with three or
    more of them fails the whole parse with an error naming the
    separator and the item, once every item before it parsed. *)
Theorem parse_too_many_separators o x pre t post ps :
  sanitize_number o x <> [] ->
  split (list_sep o) x = pre ++ t :: post ->
  collect (map (parse_term o) pre) = Ok ps ->
  (3 <= count_matches (range_sep o) t)%nat ->
  options_parse o x = Err (TooManyRangeSeparators (range_sep o) t).
Proof.
  intros Hs Hsp Hpre Hc. apply (parse_first_error o x pre t post ps); try assumption.
  unfold parse_term. destruct (count_matches (range_sep o) t) as [|[|[|k]]]; [lia..|].
  reflexivity.
Qed.

Lemma parse_too_many_separators_witness :
  options_parse options_new (lit "7, 1:2:3:4")
  = Err (TooManyRangeSeparators ":"%char (lit " 1:2:3:4")).
Proof.
  apply (parse_too_many_separators options_new _ [lit "7"] (lit " 1:2:3:4") [] [Single 7]);
    first [discriminate | reflexivity | cbn; lia].
Defined.

Lemma split_length c s : List.length (split c s) = S (count_matches c s).
Proof.
  induction s as [|x s IH]; [reflexivity|]. unfold count_matches in *. cbn.
  destruct (ascii_eqb x c); cbn; [rewrite IH; reflexivity|].
  destruct (split c s); cbn in *; [discriminate|]. exact IH.
Qed.

Lemma collect_length {A} (l : list (Result A)) vs :
  collect l = Ok vs -> List.length vs = List.length l.
Proof.
  revert vs. induction l as [|[a|e] l IH]; intros vs H; cbn in H.
  - injection H as <-. reflexivity.
  - destruct (collect l) as [vs'|] eqn:E; [|discriminate]. injection H as <-.
    cbn. rewrite (IH vs' eq_refl). reflexivity.
  - discriminate.
Qed.

(** Number of items (lib.rs 446-497): a successful parse of an input that
    does not sanitize to nothing yields one set member per list item,
    i.e. one more than the number of list separators. *)
Theorem parse_item_count o x r :
  sanitize_number o x <> [] -> options_parse o x = Ok r ->
  List.length (numbers r) = S (count_matches (list_sep o) x).
Proof.
  intros Hs H. unfold options_parse, parse_str, parse in H.
  cbn [original_repr options from_options] in H.
  destruct (sanitize_number o x) eqn:E; [congruence|].
  unfold parse_terms in H.
  destruct (collect (map (parse_term o) (split (list_sep o) x))) as [ns|] eqn:C;
    [|discriminate].
  injection H as <-. cbn [numbers]. rewrite (collect_length _ ns C), length_map.
  apply split_length.
Qed.

Lemma parse_item_count_witness :
  exists r, options_parse options_new (lit "1, 4:6, -2") = Ok r
            /\ List.length (numbers r) = 3%nat.
Proof.
  eexists. split; [reflexivity|].
  apply (parse_item_count options_new (lit "1, 4:6, -2")); [discriminate | reflexivity].
Defined.

Lemma in_trim_start_keep c s : In c s -> is_whitespace c = false -> In c (trim_start s).
Proof.
  induction s as [|x s IH]; cbn; [tauto|]. intros [-> | H] Hc.
  - rewrite Hc. left. reflexivity.
  - destruct (is_whitespace x); [apply IH; assumption | right; exact H].
Qed.

Lemma in_trim_keep c s : In c s -> is_whitespace c = false -> In c (trim s).
Proof.
  intros H Hc. unfold trim.
  pose proof (in_trim_start_keep c s H Hc) as H1. apply in_rev in H1.
  pose proof (in_trim_start_keep c _ H1 Hc) as H2. apply in_rev in H2. exact H2.
Qed.

Lemma in_replace_keep c d r s : In c s -> c <> d -> In c (replace d r s).
Proof.
  intros H Hcd. unfold replace. apply in_flat_map. exists c. split; [exact H|].
  rewrite ascii_eqb_false by exact Hcd. left. reflexivity.
Qed.

Lemma replace_nil d r s : r <> [] -> replace d r s = [] -> s = [].
Proof.
  intros Hr. destruct s as [|x s]; [reflexivity|]. unfold replace. cbn.
  destruct (ascii_eqb x d); cbn; [destruct r; [congruence|]|]; discriminate.
Qed.

(** A character that is neither whitespace nor the group separator
    survives sanitizing. *)
Lemma sanitize_keep o c x :
  In c x -> is_whitespace c = false -> c <> group_sep o -> sanitize_number o x <> [].
Proof.
  intros H Hw Hg E. unfold sanitize_number in E. apply replace_nil in E; [|discriminate].
  assert (H1 : In c (replace (group_sep o) [] (trim x)))
    by (apply in_replace_keep; [apply in_trim_keep|]; assumption).
  destruct (whitespace o).
  - unfold join_split_whitespace in E.
    assert (H2 : In c (filter (fun x => negb (is_whitespace x))
                              (replace (group_sep o) [] (trim x))))
      by (apply filter_In; rewrite Hw; auto).
    rewrite E in H2. destruct H2.
  - rewrite E in H1. destruct H1.
Qed.

Section PlainSeparators.
(** Separators that never occur in a printed [i64] and are distinct. *)
Variable o : NumberRangeOptions.
Hypothesis Hg : ~ num_char (group_sep o).
Hypothesis Hd : ~ num_char (decimal_sep o).
Hypothesis Hr : ~ num_char (range_sep o).
Hypothesis Hl : ~ num_char (list_sep o).
Hypothesis Hlr : list_sep o <> range_sep o.

Lemma parse_term_fmt_plain n :
  term_in_i64 n -> parse_term o (fmt_number o n) = Ok n.
Proof.
  intros Hn. destruct n as [v | s i e]; cbn [fmt_number].
  - unfold parse_term. rewrite count_matches_nocc by (apply show_i64_nocc, Hr).
    rewrite parse_number_show_plain by assumption. reflexivity.
  - destruct Hn as (Hs & Hi & He).
    pose proof (show_i64_nocc s _ Hr) as Ns. pose proof (show_i64_nocc e _ Hr) as Ne.
    destruct (Z.eqb_spec i 1) as [-> | Hi1]; cbn [app].
    + unfold parse_term. rewrite count_matches_one by assumption.
      rewrite split_once_app by exact Ns.
      rewrite !parse_number_show_plain by assumption. reflexivity.
    + apply (parse_term_three o s i e); assumption.
Qed.

Lemma fmt_number_nocc n : Forall (fun x => x <> list_sep o) (fmt_number o n).
Proof.
  assert (Hs : forall z, Forall (fun x => x <> list_sep o) (show_i64 z))
    by (intro z; apply show_i64_nocc, Hl).
  destruct n as [v | s i e]; cbn [fmt_number]; [apply Hs|].
  assert (H1 : Forall (fun x => x <> list_sep o) [range_sep o])
    by (constructor; [congruence | constructor]).
  destruct (i =? 1); repeat (apply Forall_app; split); auto.
Qed.

Lemma fmt_number_has_num n : exists c, In c (fmt_number o n) /\ num_char c.
Proof.
  pose proof (show_i64_chars (match n with Single v => v | Range s _ _ => s end)) as H.
  destruct (show_i64_cons (match n with Single v => v | Range s _ _ => s end))
    as (c & t & E).
  rewrite E in H. inversion H as [|? ? Hc _]; subst.
  exists c. split; [|exact Hc].
  destruct n as [v | s i e]; cbn [fmt_number]; rewrite E; [left; reflexivity|].
  destruct (i =? 1); left; reflexivity.
Qed.
End PlainSeparators.

(** Display then parse, for any options whose four separators never
    occur in a printed [i64] and whose list and range separators differ:
    any non-empty list of [i64] items is printed by [fmt] (lib.rs
    249-265) to a text that [parse] (lib.rs 444-499) reads back to the
    same items, whatever the items are and whatever the defaults. *)
Theorem fmt_parse_any_options r :
  ~ num_char (group_sep (options r)) -> ~ num_char (decimal_sep (options r)) ->
  ~ num_char (range_sep (options r)) -> ~ num_char (list_sep (options r)) ->
  list_sep (options r) <> range_sep (options r) ->
  numbers r <> [] -> Forall term_in_i64 (numbers r) ->
  options_parse (options r) (fmt r)
  = Ok {| numbers := numbers r; original_repr := Some (fmt r); options := options r |}.
Proof.
  intros Hg Hd Hr Hl Hlr Hne Hin.
  set (o := options r) in *. unfold options_parse, parse_str, parse.
  cbn [original_repr options numbers from_options].
  destruct (numbers r) as [|n ns] eqn:En; [congruence|].
  assert (Hs : sanitize_number o (fmt r) <> []).
  { destruct (fmt_number_has_num o n) as (c & Hc & Hcn).
    apply (sanitize_keep o c).
    - unfold fmt. fold o. rewrite En. cbn [map].
      destruct ns; cbn [join]; [exact Hc | apply in_or_app; left; exact Hc].
    - apply num_char_props in Hcn. tauto.
    - intros ->. exact (Hg Hcn). }
  destruct (sanitize_number o (fmt r)) eqn:E; [congruence|].
  unfold parse_terms, fmt. fold o. rewrite En.
  rewrite split_join.
  - rewrite map_map.
    rewrite (map_ext_in _ Ok) by
      (intros m Hm; apply parse_term_fmt_plain; auto;
       rewrite Forall_forall in Hin; apply Hin, Hm).
    rewrite collect_map_ok. reflexivity.
  - discriminate.
  - apply Forall_map, Forall_forall. intros m _. apply fmt_number_nocc; assumption.
Qed.

Definition semicolon_tilde_options : NumberRangeOptions :=
  with_whitespace (with_range_sep (with_list_sep options_new ";") "~") true.

Lemma fmt_parse_any_options_witness :
  let r := {| numbers := [Single 5; Range 1 2 9; Range (-3) 1 0];
              original_repr := None; options := semicolon_tilde_options |} in
  fmt r = lit "5;1~2~9;-3~0"
  /\ options_parse semicolon_tilde_options (fmt r)
     = Ok {| numbers := numbers r; original_repr := Some (fmt r);
             options := semicolon_tilde_options |}.
Proof.
  intros r. split; [reflexivity|].
  apply (fmt_parse_any_options r);
    first [ discriminate
          | apply not_num_char_dash_free; [discriminate | cbn; lia]
          | repeat apply Forall_cons; try apply Forall_nil;
            cbn; unfold in_i64, i64_min, i64_max; lia ].
Defined.

Lemma replace_empty_filter d s :
  replace d [] s = filter (fun x => negb (ascii_eqb x d)) s.
Proof.
  induction s as [|x s IH]; [reflexivity|]. unfold replace in *. cbn.
  destruct (ascii_eqb x d); cbn; rewrite IH; reflexivity.
Qed.

Lemma filter_filter_comm {A} (f g : A -> bool) s :
  filter f (filter g s) = filter g (filter f s).
Proof.
  induction s as [|x s IH]; [reflexivity|]. cbn.
  destruct (g x) eqn:Eg, (f x) eqn:Ef; cbn; rewrite ?Eg, ?Ef, IH; reflexivity.
Qed.

Lemma filter_compose {A} (f g : A -> bool) s :
  filter f (filter g s) = filter (fun x => g x && f x) s.
Proof.
  induction s as [|x s IH]; [reflexivity|]. cbn.
  destruct (g x); cbn; [destruct (f x)|]; cbn; rewrite ?IH; reflexivity.
Qed.

Lemma filter_rev' {A} (f : A -> bool) s : filter f (rev s) = rev (filter f s).
Proof.
  induction s as [|x s IH]; [reflexivity|]. cbn. rewrite filter_app, IH. cbn.
  destruct (f x); cbn; [reflexivity|]. apply app_nil_r.
Qed.

Lemma filter_nows_trim_start s :
  filter (fun x => negb (is_whitespace x)) (trim_start s)
  = filter (fun x => negb (is_whitespace x)) s.
Proof.
  induction s as [|x s IH]; [reflexivity|]. cbn.
  destruct (is_whitespace x) eqn:E; cbn; rewrite ?E; [exact IH | reflexivity].
Qed.

Lemma filter_nows_trim s :
  filter (fun x => negb (is_whitespace x)) (trim s)
  = filter (fun x => negb (is_whitespace x)) s.
Proof.
  unfold trim. rewrite filter_rev', filter_nows_trim_start, filter_rev',
    filter_nows_trim_start, rev_involutive. reflexivity.
Qed.

(** With [whitespace] set, sanitizing drops every whitespace character
    and every group separator, wherever they sit, and then swaps the
    decimal separator for ['.']. *)
Lemma sanitize_ws_eq o s :
  whitespace o = true ->
  sanitize_number o s
  = replace (decimal_sep o) ["."%char]
      (filter (fun x => negb (is_whitespace x) && negb (ascii_eqb x (group_sep o))) s).
Proof.
  intros Hw. unfold sanitize_number. rewrite Hw. unfold join_split_whitespace.
  rewrite replace_empty_filter, filter_filter_comm, filter_nows_trim,
    filter_compose. reflexivity.
Qed.

(** With [whitespace] set (lib.rs 424-442), inserting a whitespace
    character or a group separator anywhere in a number leaves its
    sanitized form unchanged; [parse_number] then yields the same value,
    or fails in both cases, the error naming the text as written. *)
Theorem sanitize_ws_insert o a c b def :
  whitespace o = true -> is_whitespace c = true \/ c = group_sep o ->
  sanitize_number o (a ++ c :: b) = sanitize_number o (a ++ b)
  /\ parse_number o (a ++ c :: b) def
     = match parse_number o (a ++ b) def with
       | Ok v => Ok v
       | Err _ => Err (NotANumber (a ++ c :: b))
       end.
Proof.
  intros Hw Hc.
  assert (E : sanitize_number o (a ++ c :: b) = sanitize_number o (a ++ b)).
  { rewrite !sanitize_ws_eq by exact Hw. rewrite !filter_app. cbn [filter].
    destruct Hc as [-> | ->]; [reflexivity|]. rewrite ascii_eqb_refl', andb_false_r.
    reflexivity. }
  split; [exact E|]. unfold parse_number. rewrite E.
  destruct def; [destruct (sanitize_number o (a ++ b)) eqn:S; [reflexivity|]|];
    rewrite <- ?S; destruct (from_str_i64 _); reflexivity.
Qed.

Lemma sanitize_ws_insert_witness :
  sanitize_number (with_whitespace options_new true) (lit "1_2 3" ++ " "%char :: lit "45")
  = lit "12345"
  /\ parse_number (with_whitespace options_new true) (lit "1_2 3" ++ " "%char :: lit "45") None
     = match parse_number (with_whitespace options_new true) (lit "1_2 3" ++ lit "45") None with
       | Ok v => Ok v
       | Err _ => Err (NotANumber (lit "1_2 3" ++ " "%char :: lit "45"))
       end.
Proof.
  split; [reflexivity|].
  apply (sanitize_ws_insert (with_whitespace options_new true) (lit "1_2 3") " "%char (lit "45"));
    [reflexivity | left; reflexivity].
Defined.
